(** * prisma: the example script [server.js] and the schema [schema.prisma]

    The repository holds one executable script, [server.js], which drives a
    database client through a handful of asynchronous calls, and one schema
    file, [prisma/schema.prisma], which declares four tables.  This
    development embeds both.

    - [Js]      promises, async functions and the job queue, as far as the
                script uses them, with the answers of the client left to an
                arbitrary environment;
    - [Server]  the script itself: [reads], [writes], [main] and the
                top-level chain [main().catch(..).finally(..)];
    - [Schema]  the schema file as data, and the database states it admits;
    - [Store]   writes checked against the schema, and the client's
                [create] and [createMany] on top of them;
    - [Query]   what [findMany] returns for given arguments.

    The client library and the database are not part of the repository.
    [Js] lets every call be answered at any later turn, fulfilled or
    rejected, or never.  [Store] and [Query] give the calls the meaning the
    schema language and the repository's notes give them: [@id] and
    [@unique] columns hold no value twice, [@relation] columns point at an
    existing row, [@default] fills what [create] is not given, and
    [findMany] with [orderBy], [skip] and [take] is
    [ORDER BY .. LIMIT take OFFSET skip] ([raw_sql_issues.md]).

    Two things are the database's choice and are left open: the id that
    [autoincrement()] hands out, which is a parameter of [create], and the
    order among rows that [orderBy] does not tell apart, so that [findMany]
    relates a state to every result it may give.  A database may also
    refuse more writes than [Store] does - one that compares strings
    without regard to case finds more duplicates - which is why the facts
    below say what holds of a write that was accepted, and which writes
    must fail. *)

From Stdlib Require Import ZArith Lia Ascii String.
From stdpp Require Import base option list strings gmap sorting.

Set Warnings "-register-all".

(** ** Data shared by the script and the store *)

(** A scalar held in a column. *)
Inductive datum : Type :=
| DNull
| DInt (n : Z)
| DStr (s : string)
| DBool (b : bool)
| DDate (t : Z).

#[global] Instance datum_eq_dec : EqDecision datum.
Proof. solve_decision. Defined.

(** A JavaScript value, as far as the script handles one: whatever a client
    call resolves to, and the arguments of [console.log]. *)
Inductive value : Type :=
| VUndefined
| VNull
| VBool (b : bool)
| VNum (n : Z)
| VStr (s : string)
| VObj (fields : list (string * value))
| VArr (items : list value).

(** *** Arguments of the client's model methods

    The object literals passed to [findUnique], [findMany], [create], ...
    are kept as typed trees, one constructor per shape the script writes. *)

Inductive filter : Type :=
| FieldEquals (f : string) (d : datum)          (* { f: d } *)
| FieldContains (f : string) (s : string)       (* { f: { contains: s } } *)
| RelSome (rel : string) (fs : list filter).    (* { rel: { some: { ... } } } *)

Inductive direction : Type := Asc | Desc.

Record find_args : Type := FindArgs {
  q_where : list filter;
  q_include : list string;
  q_orderBy : list (string * direction);
  q_take : option nat;
  q_skip : option nat
}.

(** [{ f1: d1, ..., rel: { create: [ ... ] } }] *)
Inductive create_data : Type :=
| Data (scalars : list (string * datum))
       (nested : list (string * list create_data)).

Inductive args : Type :=
| QFind (q : find_args)
| QCreate (data : create_data) (incl : list string)
| QCreateMany (data : list create_data).

Inductive method : Type :=
| FindUnique | FindFirst | FindMany | Count
| Create | CreateMany | Update | UpdateMany | Upsert
| Delete | DeleteMany.

Definition is_write (m : method) : bool :=
  match m with
  | FindUnique | FindFirst | FindMany | Count => false
  | _ => true
  end.

Definition handle := nat.

Inductive request : Type :=
| ModelOp (model : string) (m : method) (a : args)   (* prisma.<model>.<m>(a) *)
| Disconnect.                                        (* prisma.$disconnect() *)

Record call : Type := Call { receiver : handle; what : request }.

(** ** Promises, async functions and the job queue *)

Module Js.

Definition pid := nat.

Inductive outcome : Type :=
| Fulfilled (v : value)
| Rejected (e : value).

(** Code of the script.  An async function body, a handler body and the
    module's top level are all values of [prog]; a continuation stands for
    "the rest of the statements". *)
Inductive prog : Type :=
| Return (v : value)
| Throw (e : value)
| ConsoleLog (msg : list value) (k : prog)
| NewClient (k : handle -> prog)                      (* new PrismaClient() *)
| ClientCall (c : call) (k : pid -> prog)             (* a client method is called *)
| AsyncCall (name : string) (body : prog) (k : pid -> prog)
                                                      (* an async function is called *)
| Await (p : pid) (k : value -> prog)                 (* await p *)
| Catch (p : pid) (h : value -> prog) (k : pid -> prog)   (* p.catch(h) *)
| Finally (p : pid) (f : prog) (k : pid -> prog).     (* p.finally(async () => f) *)

(** [await <client call>]: the call is made, then its promise is awaited.
    The script awaits every client call on the spot, so a call is
    outstanding from the moment its [await] is reached. *)
Definition await_call (c : call) (k : value -> prog) : prog :=
  ClientCall c (fun p => Await p k).

(** Where a promise comes from. *)
Inductive origin : Type :=
| OScript                    (* the module's own completion *)
| OAsync (name : string)     (* returned by a call of the async function [name] *)
| OCall (c : call)           (* returned by a client method *)
| OCatch                     (* returned by [.catch] *)
| OFinally.                  (* returned by [.finally] *)

Inductive reaction : Type :=
| OnAwait (k : value -> prog) (self : pid)
| OnCatch (h : value -> prog) (derived : pid)
| OnFinally (f : prog) (derived : pid)
| ThenSettle (orig : outcome) (derived : pid).

Record cell : Type := Cell {
  c_origin : origin;
  c_settled : option outcome;
  c_reactions : list reaction;
  c_handled : bool
}.

Inductive event : Type :=
| EvNew (h : handle)                   (* a client is constructed *)
| EvCall (c : call)                    (* a client method is called *)
| EvLog (msg : list value)             (* console.log *)
| EvCatch (e : value)                  (* the catch handler is entered *)
| EvFinally                            (* the finally handler is entered *)
| EvSettle (who : origin) (o : outcome).   (* a promise settles *)

Record state : Type := State {
  trace : list event;                    (* oldest first *)
  promises : list cell;                  (* indexed by promise id *)
  jobs : list (reaction * outcome);      (* the job (microtask) queue *)
  outstanding : list (pid * call);       (* client calls not yet answered *)
  clients : nat                          (* handles given out so far *)
}.

Definition emit (e : event) (s : state) : state :=
  State (trace s ++ [e]) (promises s) (jobs s) (outstanding s) (clients s).

Definition set_promises (ps : list cell) (s : state) : state :=
  State (trace s) ps (jobs s) (outstanding s) (clients s).

Definition set_jobs (js : list (reaction * outcome)) (s : state) : state :=
  State (trace s) (promises s) js (outstanding s) (clients s).

Definition set_outstanding (l : list (pid * call)) (s : state) : state :=
  State (trace s) (promises s) (jobs s) l (clients s).

Definition alloc (o : origin) (s : state) : pid * state :=
  (length (promises s), set_promises (promises s ++ [Cell o None [] false]) s).

(** A pending promise settles: its reactions become jobs.  A promise settles
    once; a second attempt is ignored. *)
Definition settle (p : pid) (o : outcome) (s : state) : state :=
  match promises s !! p with
  | Some (Cell org None rs h) =>
      emit (EvSettle org o)
        (set_jobs (jobs s ++ map (fun r => (r, o)) rs)
           (set_promises (<[p := Cell org (Some o) [] h]> (promises s)) s))
  | _ => s
  end.

(** A reaction is attached to a promise: queued at once when the promise
    has settled, kept on the promise otherwise. *)
Definition subscribe (p : pid) (r : reaction) (s : state) : state :=
  match promises s !! p with
  | Some (Cell org (Some o) rs _) =>
      set_jobs (jobs s ++ [(r, o)])
        (set_promises (<[p := Cell org (Some o) rs true]> (promises s)) s)
  | Some (Cell org None rs _) =>
      set_promises (<[p := Cell org None (rs ++ [r]) true]> (promises s)) s
  | None => s
  end.

(** Run [t] until it returns, throws or awaits; [self] is the promise that
    the running function settles. *)
Fixpoint exec (self : pid) (t : prog) (s : state) : state :=
  match t with
  | Return v => settle self (Fulfilled v) s
  | Throw e => settle self (Rejected e) s
  | ConsoleLog msg k => exec self k (emit (EvLog msg) s)
  | NewClient k =>
      let h := clients s in
      exec self (k h)
        (emit (EvNew h)
           (State (trace s) (promises s) (jobs s) (outstanding s) (S h)))
  | ClientCall c k =>
      let (p, s1) := alloc (OCall c) s in
      exec self (k p)
        (emit (EvCall c) (set_outstanding (outstanding s1 ++ [(p, c)]) s1))
  | AsyncCall name body k =>
      let (p, s1) := alloc (OAsync name) s in
      exec self (k p) (exec p body s1)
  | Await p k => subscribe p (OnAwait k self) s
  | Catch p h k =>
      let (d, s1) := alloc OCatch s in
      exec self (k d) (subscribe p (OnCatch h d) s1)
  | Finally p f k =>
      let (d, s1) := alloc OFinally s in
      exec self (k d) (subscribe p (OnFinally f d) s1)
  end.

(** One job. *)
Definition run_job (j : reaction * outcome) (s : state) : state :=
  match j with
  | (OnAwait k self, Fulfilled v) => exec self (k v) s
  | (OnAwait k self, Rejected e) => settle self (Rejected e) s
  | (OnCatch h d, Fulfilled v) => settle d (Fulfilled v) s
  | (OnCatch h d, Rejected e) => exec d (h e) (emit (EvCatch e) s)
  | (OnFinally f d, o) =>
      let (pf, s1) := alloc (OAsync "onFinally") (emit EvFinally s) in
      subscribe pf (ThenSettle o d) (exec pf f s1)
  | (ThenSettle orig d, Fulfilled _) => settle d orig s
  | (ThenSettle orig d, Rejected e) => settle d (Rejected e) s
  end.

(** The job queue is emptied, oldest job first. *)
Fixpoint drain (fuel : nat) (s : state) : option state :=
  match jobs s with
  | [] => Some s
  | j :: js =>
      match fuel with
      | O => None
      | S n => drain n (run_job j (set_jobs js s))
      end
  end.

(** The environment answers one outstanding call per turn: it names the
    call by its position among the outstanding ones (a position past the
    end means the oldest) and gives its outcome. *)
Definition answer := (nat * outcome)%type.

Definition pick {A} (i : nat) (l : list A) : option (A * list A) :=
  match l !! i with
  | Some x => Some (x, delete i l)
  | None => match l with
            | [] => None
            | x :: r => Some (x, r)
            end
  end.

(** The event loop: empty the job queue, let one call be answered, repeat.
    When the answers run out the run stops where it stands, with whatever
    is still outstanding never answered. *)
Fixpoint loop (fuel : nat) (env : list answer) (s : state) : option state :=
  match drain fuel s with
  | None => None
  | Some s1 =>
      match env with
      | [] => Some s1
      | (i, o) :: env' =>
          match pick i (outstanding s1) with
          | None => Some s1
          | Some ((p, _), rest) =>
              loop fuel env' (settle p o (set_outstanding rest s1))
          end
      end
  end.

Definition init : state :=
  State [] [Cell OScript None [] true] [] [] 0.

(** The module is evaluated, then the event loop runs. *)
Definition run (fuel : nat) (t : prog) (env : list answer) : option state :=
  loop fuel env (exec 0 t init).

(** The state right after the module's top level has been evaluated and
    before any job runs. *)
Definition loaded (t : prog) : state := exec 0 t init.

(** *** Observations *)

Definition calls (tr : list event) : list call :=
  omap (fun e => match e with EvCall c => Some c | _ => None end) tr.

Definition constructed (tr : list event) : list handle :=
  omap (fun e => match e with EvNew h => Some h | _ => None end) tr.

Definition settled_of (who : origin -> bool) (tr : list event) : list outcome :=
  omap (fun e => match e with
                 | EvSettle w o => if who w then Some o else None
                 | _ => None
                 end) tr.

Definition is_async (name : string) (w : origin) : bool :=
  match w with OAsync n => bool_decide (n = name) | _ => false end.

Definition is_catch (w : origin) : bool :=
  match w with OCatch => true | _ => false end.

Definition is_finally (w : origin) : bool :=
  match w with OFinally => true | _ => false end.

Definition is_disconnect (c : call) : bool :=
  match what c with Disconnect => true | _ => false end.

Definition is_call (w : origin) : bool :=
  match w with OCall _ => true | _ => false end.

(** What the environment answered, oldest answer first. *)
Definition answers (tr : list event) : list outcome := settled_of is_call tr.

Definition reasons (os : list outcome) : list value :=
  omap (fun o => match o with Rejected e => Some e | Fulfilled _ => None end) os.

Definition fulfilments (os : list outcome) : list value :=
  omap (fun o => match o with Fulfilled v => Some v | Rejected _ => None end) os.

(** The reasons the catch handler was entered with. *)
Definition caught (tr : list event) : list value :=
  omap (fun e => match e with EvCatch r => Some r | _ => None end) tr.

(** How often the finally handler was entered. *)
Definition finally_runs (tr : list event) : nat :=
  length (List.filter (fun e => match e with EvFinally => true | _ => false end) tr).

(** The trace up to the first entry of the finally handler, and the trace
    from that entry on. *)
Fixpoint before_finally (tr : list event) : list event :=
  match tr with
  | [] => []
  | EvFinally :: _ => []
  | e :: r => e :: before_finally r
  end.

Fixpoint from_finally (tr : list event) : list event :=
  match tr with
  | [] => []
  | EvFinally :: r => EvFinally :: r
  | _ :: r => from_finally r
  end.

(** The handlers given to [.finally] that wait for their promise. *)
Definition finally_handlers (s : state) : list prog :=
  flat_map (fun c => omap (fun r => match r with
                                    | OnFinally f _ => Some f
                                    | _ => None
                                    end) (c_reactions c))
           (promises s).

(** Whether anything was ever attached to the promises of the async
    function [name], one flag per call of it. *)
Definition observed (name : string) (s : state) : list bool :=
  c_handled <$> List.filter (fun c => is_async name (c_origin c)) (promises s).

(** Reasons of the rejected promises nobody ever attached a reaction to. *)
Definition unhandled (s : state) : list value :=
  omap (fun c => match c with
                 | Cell _ (Some (Rejected e)) _ false => Some e
                 | _ => None
                 end) (promises s).

(** *** Every run of a script

    The environment may answer the outstanding calls in any order, with any
    outcome, and may stop answering at any point.  [always fuel P s] says
    that [P] holds wherever a run from [s] can stop. *)

(** Every way of taking one element out of a list. *)
Fixpoint picks {A} (l : list A) : list (A * list A) :=
  match l with
  | [] => []
  | x :: r => (x, r) :: map (fun y => (y.1, x :: y.2)) (picks r)
  end.

Inductive always (fuel : nat) (P : state -> Prop) (s : state) : Prop :=
| always_intro (s1 : state) :
    drain fuel s = Some s1 ->
    P s1 ->
    Forall (fun y => forall o,
              always fuel P (settle y.1.1 o (set_outstanding y.2 s1)))
           (picks (outstanding s1)) ->
    always fuel P s.

End Js.

(** ** The script [server.js] *)

Module Server.
Import Js.

(** [{ where: { email: "alice@example.com" } }] *)
Definition findUnique_args : args :=
  QFind (FindArgs [FieldEquals "email" (DStr "alice@example.com")] [] [] None None).

(** [{ where: { name: { contains: "Alice" } } }] *)
Definition findFirst_args : args :=
  QFind (FindArgs [FieldContains "name" "Alice"] [] [] None None).

(** [{ where: { posts: { some: { published: true } } },
       include: { posts: true, profile: true },
       orderBy: { createdAt: "desc" }, take: 10, skip: 20 }] *)
Definition findMany_query : find_args :=
  FindArgs [RelSome "posts" [FieldEquals "published" (DBool true)]]
           ["posts"; "profile"]
           [("createdAt", Desc)]
           (Some 10) (Some 20).

Definition findMany_args : args := QFind findMany_query.

(** [{ where: { posts: { some: { published: true } } } }] *)
Definition count_args : args :=
  QFind (FindArgs [RelSome "posts" [FieldEquals "published" (DBool true)]]
                  [] [] None None).

(** [async function reads()] *)
Definition reads (prisma : handle) : prog :=
  await_call (Call prisma (ModelOp "user" FindUnique findUnique_args)) (fun user =>
  ConsoleLog [VStr "User found:"; user] (
  await_call (Call prisma (ModelOp "user" FindFirst findFirst_args)) (fun firstUser =>
  await_call (Call prisma (ModelOp "user" FindMany findMany_args)) (fun users =>
  await_call (Call prisma (ModelOp "user" Count count_args)) (fun userCount =>
  Return VUndefined))))).

(** [{ data: { email: "alice@example.com", name: "Alice Smith" } }] *)
Definition create_alice : args :=
  QCreate (Data [("email", DStr "alice@example.com"); ("name", DStr "Alice Smith")] []) [].

(** [{ data: { email: "bob@example.com", name: "Bob Johnson",
               posts: { create: [ {...}, {...} ] } },
       include: { posts: true } }] *)
Definition create_bob : args :=
  QCreate
    (Data [("email", DStr "bob@example.com"); ("name", DStr "Bob Johnson")]
          [("posts",
            [Data [("title", DStr "My First Post"); ("content", DStr "Hello World!")] [];
             Data [("title", DStr "Second Post"); ("content", DStr "Learning Prisma")] []])])
    ["posts"].

(** [{ data: [ {...}, {...} ] }] *)
Definition create_users : args :=
  QCreateMany
    [Data [("email", DStr "user1@example.com"); ("name", DStr "User 1")] [];
     Data [("email", DStr "user2@example.com"); ("name", DStr "User 2")] []].

(** [async function writes()] *)
Definition writes (prisma : handle) : prog :=
  await_call (Call prisma (ModelOp "user" Create create_alice)) (fun user =>
  await_call (Call prisma (ModelOp "user" Create create_bob)) (fun userWithPost =>
  await_call (Call prisma (ModelOp "user" CreateMany create_users)) (fun users =>
  Return VUndefined))).

(** [async function main() { reads(); }] *)
Definition main (prisma : handle) : prog :=
  AsyncCall "reads" (reads prisma) (fun _ => Return VUndefined).

(** The module's top level, with the body of [main] left open:
    [const prisma = new PrismaClient();
     main().catch((e) => { throw e; })
           .finally(async () => { await prisma.$disconnect(); });] *)
Definition top_level (main_body : handle -> prog) : prog :=
  NewClient (fun prisma =>
  AsyncCall "main" (main_body prisma) (fun p =>
  Catch p (fun e => Throw e) (fun p1 =>
  Finally p1 (await_call (Call prisma Disconnect) (fun _ => Return VUndefined)) (fun _ =>
  Return VUndefined)))).

Definition server : prog := top_level main.

(** Enough fuel for every drain of the job queue the script can cause. *)
Definition fuel : nat := 16.

(** *** Names for what the proofs talk about *)

Definition c_findUnique := Call 0 (ModelOp "user" FindUnique findUnique_args).
Definition c_findFirst := Call 0 (ModelOp "user" FindFirst findFirst_args).
Definition c_findMany := Call 0 (ModelOp "user" FindMany findMany_args).
Definition c_count := Call 0 (ModelOp "user" Count count_args).
Definition c_create_alice := Call 0 (ModelOp "user" Create create_alice).
Definition c_create_bob := Call 0 (ModelOp "user" Create create_bob).
Definition c_createMany := Call 0 (ModelOp "user" CreateMany create_users).
Definition c_disconnect := Call 0 Disconnect.

Definition reads_calls : list call := [c_findUnique; c_findFirst; c_findMany; c_count].
Definition writes_calls : list call := [c_create_alice; c_create_bob; c_createMany].

(** A script that does nothing but construct a client and call [f]. *)
Definition invoke (name : string) (f : handle -> prog) : prog :=
  NewClient (fun prisma => AsyncCall name (f prisma) (fun _ => Return VUndefined)).

(** A body for [main] whose promise settles with [o]. *)
Definition settling (o : outcome) (prisma : handle) : prog :=
  match o with
  | Fulfilled v => Return v
  | Rejected e => Throw e
  end.

(** What [p.finally(f)] settles with, from the outcome of [p] and the
    outcome of the promise [f] returned. *)
Definition after_finally (orig handler : outcome) : outcome :=
  match handler with
  | Fulfilled _ => orig
  | Rejected e => Rejected e
  end.

(** The events every run of the script starts with. *)
Definition prologue : list event :=
  [EvNew 0; EvCall c_findUnique;
   EvSettle (OAsync "main") (Fulfilled VUndefined);
   EvSettle OScript (Fulfilled VUndefined);
   EvSettle OCatch (Fulfilled VUndefined);
   EvFinally; EvCall c_disconnect].

Definition issues_write (c : call) : bool :=
  match what c with
  | ModelOp _ m _ => is_write m
  | Disconnect => false
  end.

(** The handler given to [.finally]:
    [async () => { await prisma.$disconnect(); }] *)
Definition on_finally (prisma : handle) : prog :=
  await_call (Call prisma Disconnect) (fun _ => Return VUndefined).

(** The chain, had [$disconnect] been called beside it and the handler left
    empty. *)
Definition disconnect_outside (main_body : handle -> prog) : prog :=
  NewClient (fun prisma =>
  AsyncCall "main" (main_body prisma) (fun p =>
  Catch p (fun e => Throw e) (fun p1 =>
  Finally p1 (Return VUndefined) (fun _ =>
  ClientCall (Call prisma Disconnect) (fun _ =>
  Return VUndefined))))).

(** [main], had it awaited [reads]. *)
Definition main_awaiting (prisma : handle) : prog :=
  AsyncCall "reads" (reads prisma) (fun p => Await p (fun _ => Return VUndefined)).

Definition all_fulfilled (n : nat) : list answer := replicate n (0, Fulfilled VNull).

End Server.

(** ** The schema [prisma/schema.prisma] *)

Module Schema.

(** *** The schema language, as far as the file uses it *)

Inductive scalar : Type := TInt | TString | TBoolean | TDateTime.

Inductive field_type : Type :=
| Scalar (t : scalar)
| Ref (model : string).          (* a relation field: the type is a model *)

(** [T], [T?] and [T[]]. *)
Inductive arity : Type := Required | Optional | Many.

Inductive default_value : Type :=
| Autoincrement                  (* autoincrement() *)
| Now                            (* now() *)
| Literal (d : datum).

Inductive attribute : Type :=
| Id                                              (* @id *)
| Unique                                          (* @unique *)
| Default (v : default_value)                     (* @default(v) *)
| UpdatedAt                                       (* @updatedAt *)
| Relation (fields references : list string).     (* @relation(fields: .., references: ..) *)

Record field : Type := Field {
  f_name : string;
  f_type : field_type;
  f_arity : arity;
  f_attrs : list attribute
}.

Record model : Type := Model {
  m_name : string;
  m_fields : list field
}.

#[global] Instance scalar_eq_dec : EqDecision scalar.
Proof. solve_decision. Defined.
#[global] Instance field_type_eq_dec : EqDecision field_type.
Proof. solve_decision. Defined.
#[global] Instance arity_eq_dec : EqDecision arity.
Proof. solve_decision. Defined.
#[global] Instance default_value_eq_dec : EqDecision default_value.
Proof. solve_decision. Defined.
#[global] Instance attribute_eq_dec : EqDecision attribute.
Proof. solve_decision. Defined.

(** *** The four models of the file *)

Definition User : model :=
  Model "User"
    [ Field "id" (Scalar TInt) Required [Id; Default Autoincrement];
      Field "email" (Scalar TString) Required [Unique];
      Field "name" (Scalar TString) Optional [];
      Field "createdAt" (Scalar TDateTime) Required [Default Now];
      Field "updatedAt" (Scalar TDateTime) Required [UpdatedAt];
      Field "posts" (Ref "Post") Many [];
      Field "profile" (Ref "Profile") Optional [] ].

Definition Profile : model :=
  Model "Profile"
    [ Field "id" (Scalar TInt) Required [Id; Default Autoincrement];
      Field "bio" (Scalar TString) Optional [];
      Field "avatar" (Scalar TString) Optional [];
      Field "userId" (Scalar TInt) Required [Unique];
      Field "user" (Ref "User") Required [Relation ["userId"] ["id"]] ].

Definition Post : model :=
  Model "Post"
    [ Field "id" (Scalar TInt) Required [Id; Default Autoincrement];
      Field "title" (Scalar TString) Required [];
      Field "content" (Scalar TString) Optional [];
      Field "published" (Scalar TBoolean) Required [Default (Literal (DBool false))];
      Field "createdAt" (Scalar TDateTime) Required [Default Now];
      Field "updatedAt" (Scalar TDateTime) Required [UpdatedAt];
      Field "authorId" (Scalar TInt) Required [];
      Field "author" (Ref "User") Required [Relation ["authorId"] ["id"]];
      Field "tags" (Ref "Tag") Many [] ].

Definition Tag : model :=
  Model "Tag"
    [ Field "id" (Scalar TInt) Required [Id; Default Autoincrement];
      Field "name" (Scalar TString) Required [Unique];
      Field "posts" (Ref "Post") Many [] ].

Definition schema_prisma : list model := [User; Profile; Post; Tag].

(** *** Reading a schema *)

Definition find_model (sch : list model) (name : string) : option model :=
  List.find (fun m => bool_decide (m_name m = name)) sch.

Definition find_field (m : model) (name : string) : option field :=
  List.find (fun f => bool_decide (f_name f = name)) (m_fields m).

Definition has_attr (a : attribute) (f : field) : bool :=
  bool_decide (a ∈ f_attrs f).

(** A column no two rows may agree on. *)
Definition is_unique (f : field) : bool := has_attr Id f || has_attr Unique f.

Definition is_scalar (f : field) : bool :=
  match f_type f with Scalar _ => true | Ref _ => false end.

Definition is_optional (f : field) : bool := bool_decide (f_arity f = Optional).

Definition default_of (f : field) : option default_value :=
  head (omap (fun a => match a with Default v => Some v | _ => None end) (f_attrs f)).

(** The columns a relation field is stored in, and the columns of the other
    model they point at. *)
Definition foreign_key (f : field) : option (list string * list string) :=
  head (omap (fun a => match a with
                       | Relation fks ks => Some (fks, ks)
                       | _ => None
                       end) (f_attrs f)).

(** The names of the fields of [m] picked out by [p]. *)
Definition fields_where (p : field -> bool) (m : model) : list string :=
  f_name <$> List.filter p (m_fields m).

Inductive relation_kind : Type := OneToOne | OneToMany | ManyToMany.

(** The field of [b] that is the other end of a relation field of [a]. *)
Definition opposite (sch : list model) (a : string) (f : field) : option field :=
  match f_type f with
  | Scalar _ => None
  | Ref b =>
      mb ← find_model sch b;
      List.find (fun g => bool_decide (f_type g = Ref a)) (m_fields mb)
  end.

(** How a relation field of model [a] relates [a] to the model it names:
    lists on both ends make it many-to-many, a list on one end one-to-many,
    and no list one-to-one. *)
Definition kind_of (sch : list model) (a : string) (fname : string)
  : option (string * relation_kind) :=
  ma ← find_model sch a;
  f ← find_field ma fname;
  g ← opposite sch a f;
  match f_type f with
  | Scalar _ => None
  | Ref b =>
      Some (b, match f_arity f, f_arity g with
               | Many, Many => ManyToMany
               | Many, _ | _, Many => OneToMany
               | _, _ => OneToOne
               end)
  end.

(** *** States of the database *)

Abbreviation row := (gmap string datum).
Abbreviation db := (gmap string (list row)).

Definition rows (d : db) (m : string) : list row := default [] (d !! m).

Definition project (cols : list string) (r : row) : list (option datum) :=
  (fun c => r !! c) <$> cols.

(** The value a row holds in a column, when it holds one; NULL is none. *)
Definition key (f : string) (r : row) : option datum :=
  match r !! f with
  | Some DNull => None
  | o => o
  end.

Definition keys (f : string) (rs : list row) : list datum := omap (key f) rs.

Definition has_type (t : scalar) (d : datum) : bool :=
  match t, d with
  | TInt, DInt _ | TString, DStr _ | TBoolean, DBool _ | TDateTime, DDate _ => true
  | _, _ => false
  end.

(** A scalar field is a column: it holds a value of its type, or NULL when
    the field is optional.  A relation field is no column. *)
Definition cell_ok (r : row) (f : field) : bool :=
  match f_type f with
  | Scalar t =>
      match r !! f_name f with
      | Some DNull => is_optional f
      | Some d => has_type t d
      | None => false
      end
  | Ref _ => true
  end.

Definition row_ok (m : model) (r : row) : bool := forallb (cell_ok r) (m_fields m).

Definition unique_ok (d : db) (m : model) (f : field) : Prop :=
  is_unique f -> NoDup (keys (f_name f) (rows d (m_name m))).

Definition references_ok (d : db) (m : model) (f : field) : Prop :=
  match f_type f, foreign_key f with
  | Ref target, Some (fks, ks) =>
      Forall (fun r => project fks r ∈ project ks <$> rows d target)
             (rows d (m_name m))
  | _, _ => True
  end.

Definition model_ok (d : db) (m : model) : Prop :=
  Forall (fun r => row_ok m r) (rows d (m_name m)) /\
  Forall (unique_ok d m) (m_fields m) /\
  Forall (references_ok d m) (m_fields m).

(** The states a schema admits. *)
Definition admissible (sch : list model) (d : db) : Prop :=
  Forall (model_ok d) sch.

(** No two rows of table [m] agree on column [f]. *)
Definition unique_column (d : db) (m f : string) : Prop :=
  forall i j r1 r2,
    rows d m !! i = Some r1 -> rows d m !! j = Some r2 ->
    r1 !! f = r2 !! f -> i = j.

(** Row [r] holds in column [c] a value of type [t], or NULL when the
    column is nullable. *)
Definition column_holds (r : row) (c : string) (t : scalar) (nullable : bool) : Prop :=
  exists v, r !! c = Some v /\ (has_type t v \/ (nullable /\ v = DNull)).

#[global] Instance references_ok_dec d m f : Decision (references_ok d m f).
Proof.
  unfold references_ok.
  destruct (f_type f); [apply _|]. destruct (foreign_key f) as [[??]|]; apply _.
Defined.

#[global] Instance admissible_dec sch d : Decision (admissible sch d).
Proof. unfold admissible, model_ok, unique_ok. apply _. Defined.

End Schema.

(** ** The store: writes checked against the schema *)

Module Store.
Import Schema.

(** The rows related to [r] through the relation field [rel] of model [m],
    with the model they live in.  The end that carries [@relation] holds
    the foreign key. *)
Definition related_rows (sch : list model) (d : db) (m rel : string) (r : row)
  : option (string * list row) :=
  mdl ← find_model sch m;
  f ← find_field mdl rel;
  g ← opposite sch m f;
  match f_type f with
  | Ref target =>
      match foreign_key f, foreign_key g with
      | Some (fks, ks), _ =>
          Some (target,
                List.filter (fun r' => bool_decide (project ks r' = project fks r))
                            (rows d target))
      | None, Some (fks, ks) =>
          Some (target,
                List.filter (fun r' => bool_decide (project fks r' = project ks r))
                            (rows d target))
      | None, None => None
      end
  | Scalar _ => None
  end.

Inductive write : Type :=
| Insert (m : string) (r : row)
| Replace (m : string) (i : nat) (r : row)     (* row [i] of [m] becomes [r] *)
| Remove (m : string) (i : nat).

(** No other row holds the value [r] has in a unique column. *)
Definition fresh_keys (mdl : model) (r : row) (others : list row) : bool :=
  forallb (fun f => negb (is_unique f) ||
                    match key (f_name f) r with
                    | Some k => bool_decide (k ∉ keys (f_name f) others)
                    | None => true
                    end)
          (m_fields mdl).

Definition references_hold (sch : list model) (d : db) : bool :=
  bool_decide (Forall (fun m => Forall (references_ok d m) (m_fields m)) sch).

Definition commit (sch : list model) (mdl : model) (r : row)
    (others : list row) (d' : db) : option db :=
  if row_ok mdl r && fresh_keys mdl r others && references_hold sch d'
  then Some d' else None.

(** One write.  The row written must fit its model and be new in every
    unique column, and no reference may dangle afterwards; a write that
    fails leaves no state. *)
Definition step (sch : list model) (w : write) (d : db) : option db :=
  match w with
  | Insert m r =>
      mdl ← find_model sch m;
      commit sch mdl r (rows d m) (<[m := rows d m ++ [r]]> d)
  | Replace m i r =>
      mdl ← find_model sch m;
      _ ← rows d m !! i;
      commit sch mdl r (delete i (rows d m)) (<[m := <[i := r]> (rows d m)]> d)
  | Remove m i =>
      mdl ← find_model sch m;
      _ ← rows d m !! i;
      let d' := <[m := delete i (rows d m)]> d in
      if references_hold sch d' then Some d' else None
  end.

(** *** What the client's [create] adds to the data it is given *)

(** [@default(autoincrement())]: the id of a new row is the database's to
    choose.  It comes from a counter that never goes back, so it is not
    determined by the rows present: the id of a row that was removed is not
    given out again.  [auto m rs] stands for the id the database hands to a
    new row of table [m] when the table holds the rows [rs]; nothing is
    assumed of it. *)
Definition id_source : Type := string -> list row -> Z.

(** The value a new row gets in a column: the one given, else the
    declared default ([id] is the id the database hands out), else the time
    for [@updatedAt], else NULL when the field is optional; a required
    field without any of these is an error. *)
Definition initial (now : Z) (id : Z) (given : row) (f : field)
  : option datum :=
  match given !! f_name f with
  | Some d => Some d
  | None =>
      match default_of f with
      | Some Autoincrement => Some (DInt id)
      | Some Now => Some (DDate now)
      | Some (Literal d) => Some d
      | None =>
          if has_attr UpdatedAt f then Some (DDate now)
          else if is_optional f then Some DNull
          else None
      end
  end.

Definition new_row (mdl : model) (now : Z) (id : Z) (given : row)
  : option row :=
  foldr (fun f acc =>
           r ← acc;
           if is_scalar f
           then d ← initial now id given f; Some (<[f_name f := d]> r)
           else Some r)
        (Some ∅) (m_fields mdl).

(** Only columns of the model may be given. *)
Definition known_columns (mdl : model) (given : list (string * datum)) : bool :=
  forallb (fun kv => bool_decide (kv.1 ∈ fields_where is_scalar mdl)) given.

(** The model and the foreign-key columns for rows created under the
    relation field [rel] of the row [r]. *)
Definition link (sch : list model) (mdl : model) (rel : string) (r : row)
  : option (string * list (string * datum)) :=
  f ← find_field mdl rel;
  g ← opposite sch (m_name mdl) f;
  fk ← foreign_key g;
  vals ← mapM (fun k => r !! k) fk.2;
  match f_type f with
  | Ref target => Some (target, zip fk.1 vals)
  | Scalar _ => None
  end.

(** [create]: the row is completed and inserted, then the rows nested
    under its relation fields, each pointing back at it.  Any failure fails
    the whole call. *)
Fixpoint create_in (sch : list model) (now : Z) (auto : id_source) (m : string)
    (extra : list (string * datum)) (data : create_data) (d : db)
  : option (db * row) :=
  match data with
  | Data scalars nested =>
      mdl ← find_model sch m;
      _ ← guard (known_columns mdl scalars);
      r ← new_row mdl now (auto m (rows d m)) (list_to_map (extra ++ scalars));
      d1 ← step sch (Insert m r) d;
      d2 ← (fix relations l d :=
              match l with
              | [] => Some d
              | (rel, children) :: l' =>
                  tl ← link sch mdl rel r;
                  d' ← (fix each cs d :=
                          match cs with
                          | [] => Some d
                          | c :: cs' =>
                              dr ← create_in sch now auto tl.1 tl.2 c d;
                              each cs' dr.1
                          end) children d;
                  relations l' d'
              end) nested d1;
      Some (d2, r)
  end.


Fixpoint create_each (sch : list model) (now : Z) (auto : id_source) (m : string)
    (l : list create_data) (d : db) : option db :=
  match l with
  | [] => Some d
  | c :: l' => dr ← create_in sch now auto m [] c d; create_each sch now auto m l' dr.1
  end.

(** The client names a model's methods by the model's name with a lower
    case initial: [prisma.user] is model [User]. *)
Definition lower (c : ascii) : ascii :=
  let n := nat_of_ascii c in
  if (65 <=? n)%nat && (n <=? 90)%nat then ascii_of_nat (n + 32) else c.

Definition delegate (m : model) : string :=
  match m_name m with
  | EmptyString => EmptyString
  | String c s => String (lower c) s
  end.

Definition model_of (sch : list model) (name : string) : option model :=
  List.find (fun m => bool_decide (delegate m = name)) sch.

(** What a request does to the database.  The reading methods and
    [$disconnect] leave it alone; a failed write does too. *)
Definition perform (sch : list model) (now : Z) (auto : id_source) (q : request)
    (d : db) : db :=
  match q with
  | ModelOp name Create (QCreate data _) =>
      default d (mdl ← model_of sch name;
                 fst <$> create_in sch now auto (m_name mdl) [] data d)
  | ModelOp name CreateMany (QCreateMany l) =>
      default d (mdl ← model_of sch name;
                 create_each sch now auto (m_name mdl) l d)
  | _ => d
  end.

(** *** Reading references, and two databases to try things on *)

(** The place, in table [target], of the first row whose columns [ks]
    hold what [r] holds in [fks]. *)
Definition referenced (d : db) (target : string) (fks ks : list string) (r : row)
  : option nat :=
  fst <$> list_find (fun r' => project ks r' = project fks r) (rows d target).

(** The user a profile belongs to, the author of a post. *)
Definition owner (d : db) (p : row) : option nat :=
  referenced d "User" ["userId"] ["id"] p.


(** The profiles of a user. *)
Definition profiles_of (d : db) (u : row) : list row :=
  List.filter (fun p => bool_decide (project ["userId"] p = project ["id"] u))
              (rows d "Profile").

(** A small database: two users, one of them with a profile and two
    posts, and two tags. *)
Definition example_db : db :=
  list_to_map
    [ ("User",
       [ list_to_map [("id", DInt 1); ("email", DStr "alice@example.com");
                      ("name", DStr "Alice Smith");
                      ("createdAt", DDate 10); ("updatedAt", DDate 10)];
         list_to_map [("id", DInt 2); ("email", DStr "bob@example.com");
                      ("name", DNull);
                      ("createdAt", DDate 20); ("updatedAt", DDate 25)] ]);
      ("Profile",
       [ list_to_map [("id", DInt 1); ("bio", DStr "hello"); ("avatar", DNull);
                      ("userId", DInt 2)] ]);
      ("Post",
       [ list_to_map [("id", DInt 1); ("title", DStr "My First Post");
                      ("content", DStr "Hello World!"); ("published", DBool true);
                      ("createdAt", DDate 21); ("updatedAt", DDate 21);
                      ("authorId", DInt 2)];
         list_to_map [("id", DInt 2); ("title", DStr "Second Post");
                      ("content", DNull); ("published", DBool false);
                      ("createdAt", DDate 22); ("updatedAt", DDate 22);
                      ("authorId", DInt 2)] ]);
      ("Tag",
       [ list_to_map [("id", DInt 1); ("name", DStr "orm")];
         list_to_map [("id", DInt 2); ("name", DStr "sql")] ]) ].

(** The ids of a table that never lost a row and was never given an id by
    hand: one past the largest id present.  It serves to try things on. *)
Definition dense : id_source := fun _ rs =>
  (1 + foldr (fun r acc => match r !! "id" with
                           | Some (DInt n) => Z.max n acc
                           | _ => acc
                           end) 0 rs)%Z.

(** The database [writes] leaves behind when run on an empty one at time
    [now]. *)
Definition after_writes (now : Z) (auto : id_source) : db :=
  foldl (fun d c => perform schema_prisma now auto (what c) d) ∅ Server.writes_calls.

End Store.

(** ** What [findMany] returns *)

Module Query.
Import Schema Store.

Fixpoint contains (needle hay : string) : bool :=
  String.prefix needle hay ||
  match hay with
  | EmptyString => false
  | String _ h => contains needle h
  end.

(** Whether the row [r] of model [m] passes a filter. *)
Fixpoint holds (sch : list model) (d : db) (m : string) (flt : filter) (r : row)
  : bool :=
  match flt with
  | FieldEquals f v => bool_decide (r !! f = Some v)
  | FieldContains f s =>
      match r !! f with
      | Some (DStr x) => contains s x
      | _ => false
      end
  | RelSome rel fs =>
      match related_rows sch d m rel r with
      | Some (target, rs) =>
          existsb (fun r' => forallb (fun g => holds sch d target g r') fs) rs
      | None => false
      end
  end.

Definition passes (sch : list model) (d : db) (m : string) (fs : list filter)
    (r : row) : bool :=
  forallb (fun g => holds sch d m g r) fs.

(** An order on column values: NULL first, then by value. *)
Definition tag (a : datum) : Z :=
  match a with
  | DNull => 0 | DBool _ => 1 | DInt _ => 2 | DDate _ => 3 | DStr _ => 4
  end.

Definition num (a : datum) : Z :=
  match a with
  | DBool b => if b then 1 else 0
  | DInt n => n
  | DDate t => t
  | _ => 0
  end.

Definition str (a : datum) : string :=
  match a with DStr s => s | _ => EmptyString end.

Definition datum_leb (a b : datum) : bool :=
  if (tag a <? tag b)%Z then true
  else if (tag b <? tag a)%Z then false
  else if (num a <? num b)%Z then true
  else if (num b <? num a)%Z then false
  else String.leb (str a) (str b).

Definition before (dir : direction) (a b : datum) : bool :=
  match dir with
  | Asc => negb (datum_leb b a)
  | Desc => negb (datum_leb a b)
  end.

(** [r1] may come before [r2] under an [orderBy]. *)
Fixpoint row_leb (by_ : list (string * direction)) (r1 r2 : row) : bool :=
  match by_ with
  | [] => true
  | (f, dir) :: rest =>
      let a := default DNull (r1 !! f) in
      let b := default DNull (r2 !! f) in
      if before dir a b then true
      else if before dir b a then false
      else row_leb rest r1 r2
  end.

Record found : Type := Found {
  base : row;
  included : list (string * list row)
}.

Definition with_relations (sch : list model) (d : db) (m : string)
    (incl : list string) (r : row) : found :=
  Found r ((fun rel => (rel, default [] (snd <$> related_rows sch d m rel r))) <$> incl).

Definition matching (sch : list model) (d : db) (m : string) (q : find_args)
  : list row :=
  List.filter (passes sch d m (q_where q)) (rows d m).

(** *** The order of the result

    [orderBy] says which of two rows comes first only when they differ in
    the columns it names.  Among rows that agree there the database is
    free, and it need not choose the same way twice.  So the result of
    [findMany] is not a function of the state: [l] is one way of putting
    the matching rows in order, and a result is the window cut out of such
    an [l]. *)

Definition in_order (by_ : list (string * direction)) (l : list row) : Prop :=
  StronglySorted (fun r1 r2 => Is_true (row_leb by_ r1 r2)) l.

Definition sorts (sch : list model) (d : db) (m : string) (q : find_args)
    (l : list row) : Prop :=
  l ≡ₚ matching sch d m q /\ in_order (q_orderBy q) l.

Definition window (q : find_args) (l : list row) : list row :=
  let rest := match q_skip q with Some n => drop n l | None => l end in
  match q_take q with Some n => take n rest | None => rest end.

(** The result for the order [l]: [l] without the first [skip], at most
    [take] of them, each with the relations named by [include]. *)
Definition page (sch : list model) (d : db) (m : string) (q : find_args)
    (l : list row) : list found :=
  with_relations sch d m (q_include q) <$> window q l.

(** [findMany]: the rows that pass [where], in an order [orderBy] allows,
    without the first [skip], at most [take] of them, each with the
    relations named by [include]. *)
Definition findMany (sch : list model) (d : db) (m : string) (q : find_args)
    (res : list found) : Prop :=
  exists l, sorts sch d m q l /\ res = page sch d m q l.

(** One order [orderBy] allows: the one a merge sort makes of the order
    the rows have in the table. *)
Definition an_order (sch : list model) (d : db) (m : string) (q : find_args)
  : list row :=
  merge_sort (fun r1 r2 => row_leb (q_orderBy q) r1 r2) (matching sch d m q).

End Query.

(** ** What else a run shows *)

Module Watch.
Import Js Server.

(** What [console.log] was given, oldest first. *)
Definition logged (tr : list event) : list (list value) :=
  omap (fun e => match e with EvLog msg => Some msg | _ => None end) tr.

(** The calls and the logs of a run, in the order they happened. *)
Definition visible (tr : list event) : list event :=
  List.filter (fun e => match e with EvCall _ | EvLog _ => true | _ => false end) tr.

(** The answers to [$disconnect], and the answers to everything else. *)
Definition disconnect_answers (tr : list event) : list outcome :=
  settled_of (fun w => match w with OCall c => is_disconnect c | _ => false end) tr.

Definition query_answers (tr : list event) : list outcome :=
  settled_of (fun w => match w with OCall c => negb (is_disconnect c) | _ => false end) tr.

End Watch.

(** ** Counting, and databases to try the scan on *)

Module Reading.
Import Schema Store Query.

(** [count]: how many rows pass [where]. *)
Definition count (sch : list model) (d : db) (m : string) (q : find_args) : nat :=
  length (matching sch d m q).

(** [{ where: { posts: { some: { published: true } } } }], the arguments
    of the [count] in [reads]. *)
Definition count_query : find_args :=
  FindArgs [RelSome "posts" [FieldEquals "published" (DBool true)]] [] [] None None.

(** [{ where: { email } }], the arguments of a lookup by email. *)
Definition email_query (email : string) : find_args :=
  FindArgs [FieldEquals "email" (DStr email)] [] [] None None.

(** A database of [n] users, user [i] created at time [i] and the author of
    one published post. *)
Definition crowd (n : nat) : db :=
  list_to_map
    [ ("User",
       (fun i : nat =>
          list_to_map [("id", DInt (Z.of_nat i)); ("email", DStr (String (ascii_of_nat (64 + i)) "@example.com"));
                       ("name", DNull);
                       ("createdAt", DDate (Z.of_nat i));
                       ("updatedAt", DDate (Z.of_nat i))]) <$> seq 1 n);
      ("Post",
       (fun i : nat =>
          list_to_map [("id", DInt (Z.of_nat i)); ("title", DStr "post");
                       ("content", DNull); ("published", DBool true);
                       ("createdAt", DDate (Z.of_nat i));
                       ("updatedAt", DDate (Z.of_nat i));
                       ("authorId", DInt (Z.of_nat i))]) <$> seq 1 n) ].

(** A database of [n] users created at the same time, each the author of
    one published post. *)
Definition same_time (n : nat) : db :=
  list_to_map
    [ ("User",
       (fun i : nat =>
          list_to_map [("id", DInt (Z.of_nat i)); ("email", DStr (String (ascii_of_nat (64 + i)) "@example.com"));
                       ("name", DNull);
                       ("createdAt", DDate 0);
                       ("updatedAt", DDate 0)]) <$> seq 1 n);
      ("Post",
       (fun i : nat =>
          list_to_map [("id", DInt (Z.of_nat i)); ("title", DStr "post");
                       ("content", DNull); ("published", DBool true);
                       ("createdAt", DDate 0);
                       ("updatedAt", DDate 0);
                       ("authorId", DInt (Z.of_nat i))]) <$> seq 1 n) ].

End Reading.

(** ** The scripts of [orm_slides.md] *)

Module GettingStarted.
Import Js.

Definition create_john : args :=
  QCreate
    (Data [("email", DStr "john@prisma.io"); ("name", DStr "John Doe"); ("age", DInt 28)]
          [("posts",
            [Data [("title", DStr "My First Post");
                   ("content", DStr "This is my first post with Prisma!")] [];
             Data [("title", DStr "Learning Prisma");
                   ("content", DStr "Prisma makes database access so much easier!")] []])])
    ["posts"].

Definition find_all : args := QFind (FindArgs [] ["posts"] [] None None).

Section Main.
(** [JSON.stringify(allUsers, null, 2)] *)
Variable stringify : value -> string.

(** [async function main()] of "Your First Prisma Project". *)
Definition main (prisma : handle) : prog :=
  await_call (Call prisma (ModelOp "user" Create create_john)) (fun user =>
  ConsoleLog [VStr "Created user:"; user] (
  await_call (Call prisma (ModelOp "user" FindMany find_all)) (fun allUsers =>
  ConsoleLog [VStr "All users:"; VStr (stringify allUsers)] (
  Return VUndefined)))).

End Main.

Definition c_create_john := Call 0 (ModelOp "user" Create create_john).
Definition c_find_all := Call 0 (ModelOp "user" FindMany find_all).

End GettingStarted.

(** [if (x)]: what JavaScript takes for true. *)
Definition truthy (v : value) : bool :=
  match v with
  | VUndefined | VNull => false
  | VBool b => b
  | VNum n => negb (n =? 0)%Z
  | VStr s => negb (bool_decide (s = EmptyString))
  | VObj _ | VArr _ => true
  end.

(** [new Error(message)] *)
Definition Error (message : string) : value := VObj [("message", VStr message)].

Module UserRepository.
Import Js.

(** [async create(data)] *)
Definition create (prisma : handle) (data : create_data) : prog :=
  await_call (Call prisma (ModelOp "user" Create (QCreate data []))) Return.

(** [async findByEmail(email)] *)
Definition findByEmail (prisma : handle) (email : string) : prog :=
  await_call
    (Call prisma (ModelOp "user" FindUnique
                    (QFind (FindArgs [FieldEquals "email" (DStr email)] [] [] None None))))
    Return.

End UserRepository.

Module UserService.
Import Js.

(** The data of a new user: its email, and its other columns. *)
Definition userData (email : string) (others : list (string * datum)) : create_data :=
  Data (("email", DStr email) :: others) [].

(** [async createUser(userData)] *)
Definition createUser (prisma : handle) (email : string)
    (others : list (string * datum)) : prog :=
  if negb (Query.contains "@" email) then Throw (Error "Invalid email format")
  else
    AsyncCall "findByEmail" (UserRepository.findByEmail prisma email) (fun p =>
    Await p (fun existingUser =>
    if truthy existingUser then Throw (Error "User already exists")
    else
      AsyncCall "create" (UserRepository.create prisma (userData email others)) (fun p =>
      Await p Return))).

Definition c_lookup (email : string) : call :=
  Call 0 (ModelOp "user" FindUnique
            (QFind (FindArgs [FieldEquals "email" (DStr email)] [] [] None None))).

Definition c_create (email : string) (others : list (string * datum)) : call :=
  Call 0 (ModelOp "user" Create (QCreate (userData email others) [])).

(** What [createUser] does after the lookup, from the answers so far. *)
Definition after_lookup (email : string) (others : list (string * datum))
    (os : list outcome) : list call * list outcome :=
  match os with
  | [] => ([], [])
  | Rejected e :: _ => ([], [Rejected e])
  | Fulfilled existingUser :: rest =>
      if truthy existingUser
      then ([], [Rejected (Error "User already exists")])
      else ([c_create email others], take 1 rest)
  end.

End UserService.

(** ** The snippets of [raw_sql_issues.md] *)

Module RawSql.

(** *** Building a query from filters *)

(** The [filters] object: each property holds a value of its kind or is
    absent. *)
Record filters : Type := Filters {
  name : option string;
  minAge : option Z;
  email : option string
}.

(** [if (s)] for a string property and [if (n)] for a number property. *)
Definition set_string (o : option string) : option string :=
  match o with
  | Some EmptyString | None => None
  | Some s => Some s
  end.

Definition set_number (o : option Z) : option Z :=
  match o with
  | Some 0%Z | None => None
  | Some n => Some n
  end.

Record built : Type := Built { query : string; params : list value }.

(** [function buildUserQuery(filters)] *)
Definition buildUserQuery (f : filters) : built :=
  let b0 := Built "SELECT * FROM users WHERE 1=1" [] in
  let b1 := match set_string (name f) with
            | Some s => Built (query b0 +:+ " AND name LIKE ?")
                              (params b0 ++ [VStr ("%" +:+ s +:+ "%")])
            | None => b0
            end in
  let b2 := match set_number (minAge f) with
            | Some n => Built (query b1 +:+ " AND age >= ?") (params b1 ++ [VNum n])
            | None => b1
            end in
  let b3 := match set_string (email f) with
            | Some s => Built (query b2 +:+ " AND email = ?") (params b2 ++ [VStr s])
            | None => b2
            end in
  b3.

(** The conditions of a [where] object. *)
Inductive condition : Type :=
| contains (s : string)       (* { contains: s } *)
| gte (n : Z)                 (* { gte: n } *)
| equals (s : string).        (* s *)

(** [const where = {}; if (filters.name) where.name = ...; ...] *)
Definition dynamic_where (f : filters) : list (string * condition) :=
  let w0 := [] in
  let w1 := match set_string (name f) with
            | Some s => w0 ++ [("name", contains s)]
            | None => w0
            end in
  let w2 := match set_number (minAge f) with
            | Some n => w1 ++ [("age", gte n)]
            | None => w1
            end in
  let w3 := match set_string (email f) with
            | Some s => w2 ++ [("email", equals s)]
            | None => w2
            end in
  w3.

(** A condition as SQL text with a placeholder, and the parameter for it. *)
Definition clause (kc : string * condition) : string :=
  match kc.2 with
  | contains _ => " AND " +:+ kc.1 +:+ " LIKE ?"
  | gte _ => " AND " +:+ kc.1 +:+ " >= ?"
  | equals _ => " AND " +:+ kc.1 +:+ " = ?"
  end.

Definition parameter (kc : string * condition) : value :=
  match kc.2 with
  | contains s => VStr ("%" +:+ s +:+ "%")
  | gte n => VNum n
  | equals s => VStr s
  end.

(** How often a character occurs in a string. *)
Fixpoint occurrences (c : ascii) (s : string) : nat :=
  match s with
  | EmptyString => 0
  | String a s' => (if Ascii.eqb a c then 1 else 0) + occurrences c s'
  end.

(** Which filters are set. *)
Definition shape (f : filters) : bool * bool * bool :=
  (bool_decide (is_Some (set_string (name f))),
   bool_decide (is_Some (set_number (minAge f))),
   bool_decide (is_Some (set_string (email f)))).

End RawSql.

Module Restructure.

(** *** Putting joined rows back together *)

(** A row of the join of users, posts and comments.  The two ids that the
    code tests are integers or NULL; the other columns are carried along. *)
Record joined : Type := Joined {
  id : value; name : value; email : value;
  post_id : option Z; title : value; content : value;
  comment_id : option Z; text : value; author_name : value
}.

Record comment : Type := Comment { c_id : Z; c_text : value; c_author : value }.

Record post : Type := Post {
  p_id : Z; p_title : value; p_content : value; comments : list comment
}.

Record user : Type := User {
  u_id : value; u_name : value; u_email : value; posts : list post
}.

(** [if (row.post_id)], [if (row.comment_id)]: an id that is there and is
    not 0. *)
Definition present (o : option Z) : option Z :=
  match o with
  | Some 0%Z | None => None
  | Some k => Some k
  end.

(** A [Map] from post ids to posts, in insertion order. *)
Definition map := list (Z * post).

Definition has (m : map) (k : Z) : bool := bool_decide (k ∈ m.*1).

Definition get (m : map) (k : Z) : option post :=
  snd <$> List.find (fun kp => bool_decide (kp.1 = k)) m.

(** [postsMap.get(k).comments.push(c)]: the post under [k] is changed in
    place. *)
Definition push (k : Z) (c : comment) (m : map) : map :=
  (fun kp => if bool_decide (kp.1 = k)
             then (kp.1, Post (p_id kp.2) (p_title kp.2) (p_content kp.2)
                              (comments kp.2 ++ [c]))
             else kp) <$> m.

(** The body of [rows.forEach]; [None] is the [TypeError] of reading
    [comments] of [undefined]. *)
Definition each (m : map) (row : joined) : option map :=
  let m1 := match present (post_id row) with
            | Some k => if negb (has m k)
                        then m ++ [(k, Post k (title row) (content row) [])]
                        else m
            | None => m
            end in
  match present (comment_id row) with
  | Some c =>
      k ← post_id row;
      _ ← get m1 k;
      Some (push k (Comment c (text row) (author_name row)) m1)
  | None => Some m1
  end.

Fixpoint forEach (rows : list joined) (m : map) : option map :=
  match rows with
  | [] => Some m
  | row :: rest => m' ← each m row; forEach rest m'
  end.

(** The whole snippet: [rows[0]] is read first, which fails on no rows. *)
Definition restructure (rows : list joined) : option user :=
  first ← head rows;
  m ← forEach rows [];
  Some (User (id first) (name first) (email first) (m.*2)).

(** The comment a row carries, and the rows that carry a comment for the
    post [k]. *)
Definition comment_of (row : joined) : option comment :=
  c ← present (comment_id row); Some (Comment c (text row) (author_name row)).

Definition comments_for (k : Z) (rows : list joined) : list comment :=
  omap comment_of (List.filter (fun row => bool_decide (post_id row = Some k)) rows).

(** A row with a comment but no post. *)
Definition orphan (row : joined) : bool :=
  bool_decide (is_Some (present (comment_id row)))
  && negb (bool_decide (is_Some (present (post_id row)))).

End Restructure.

(** * Proofs *)

(** ** Every run of a script *)

Module Runs.
Import Js.

Lemma lookup_picks {A} (l : list A) i x :
  l !! i = Some x -> (x, delete i l) ∈ picks l.
Proof.
  revert i. induction l as [|a l IH]; intros [|i] H; simplify_eq/=.
  - left.
  - right. apply (list_elem_of_fmap_2 (fun y => (y.1, a :: y.2)) _ (x, delete i l)).
    by apply IH.
Qed.

Lemma pick_picks {A} (l : list A) i y : pick i l = Some y -> y ∈ picks l.
Proof.
  unfold pick. destruct (l !! i) as [x|] eqn:E.
  - intros [= <-]. by apply lookup_picks.
  - destruct l as [|a l]; intros [= <-]. left.
Qed.

Lemma always_loop fuel P env : forall s,
  always fuel P s -> exists s', loop fuel env s = Some s' /\ P s'.
Proof.
  induction env as [|[i o] env IH]; intros s [s1 Hd HP Hnext]; simpl; rewrite Hd.
  - eauto.
  - destruct (pick i (outstanding s1)) as [[[p c] rest]|] eqn:E; [|eauto].
    apply pick_picks in E. rewrite Forall_forall in Hnext.
    apply IH. apply (Hnext _ E o).
Qed.

Lemma always_run fuel P t :
  always fuel P (loaded t) ->
  forall env, exists s, run fuel t env = Some s /\ P s.
Proof. intros H env. by apply always_loop. Qed.

(** Symbolic execution of all runs: the job queue is emptied by
    computation, [tac] proves the property of the state reached, and every
    outstanding call is answered both ways. *)
Ltac settle_all tac :=
  lazymatch goal with
  | |- always ?fuel ?P ?s =>
      let r := eval vm_compute in (drain fuel s) in
      lazymatch r with
      | Some ?s1 =>
          apply (always_intro fuel P s s1);
          [ vm_compute; reflexivity
          | tac
          | let l := eval vm_compute in (picks (outstanding s1)) in
            change (picks (outstanding s1)) with l;
            repeat (apply Forall_cons_2; [ intros [?v|?e]; settle_all tac | ]);
            apply Forall_nil_2 ]
      end
  end.

Ltac all_runs tac := apply always_run; settle_all tac.

(** One run, on given answers: the final state is computed. *)
Ltac run_to_end :=
  lazymatch goal with
  | |- exists s, ?r = Some s /\ _ =>
      let v := eval vm_compute in r in
      lazymatch v with
      | Some ?s1 =>
          exists s1; split; [ vm_compute; reflexivity | repeat split; vm_compute; reflexivity ]
      end
  end.

End Runs.

(** ** Facts about the script *)

Module ServerFacts.
Import Js Server Runs.

(** *** Sanity checks on single runs *)

Example reads_runs_through :
  (calls ∘ trace) <$> run fuel (invoke "reads" reads) (all_fulfilled 4) = Some reads_calls.
Proof. vm_compute. reflexivity. Qed.

Example writes_runs_through :
  (calls ∘ trace) <$> run fuel (invoke "writes" writes) (all_fulfilled 3) = Some writes_calls.
Proof. vm_compute. reflexivity. Qed.

Example server_quiet_database :
  (calls ∘ trace) <$> run fuel server [] = Some [c_findUnique; c_disconnect].
Proof. vm_compute. reflexivity. Qed.

(** Had [main] awaited [reads], a failed read would have reached the catch
    handler. *)
Lemma awaited_reads_is_caught (e : value) :
  (caught ∘ trace) <$> run fuel (top_level main_awaiting) [(0, Rejected e)] = Some [e].
Proof. vm_compute. reflexivity. Qed.

(** When the disconnect call is itself rejected, its reason replaces the
    one the chain carried. *)
Lemma failed_disconnect_masks (e e' : value) :
  (fun s => (settled_of is_finally (trace s), unhandled s))
    <$> run fuel (top_level (settling (Rejected e))) [(0, Rejected e')]
  = Some ([Rejected e'], [e']).
Proof. vm_compute. reflexivity. Qed.

(** Attaching a reaction to a promise is invisible in the trace. *)
Lemma trace_subscribe p r s : trace (subscribe p r s) = trace s.
Proof. unfold subscribe. by destruct (promises s !! p) as [[? [?|] ? ?]|]. Qed.

(** Whenever the handler the script gives to [.finally] is run, in whatever
    state and for whatever outcome, it calls [$disconnect] on the client
    before anything else happens. *)
Lemma on_finally_disconnects s d o :
  trace (run_job (OnFinally (on_finally 0) d, o) s)
  = trace s ++ [EvFinally; EvCall c_disconnect].
Proof.
  cbn [run_job on_finally await_call exec alloc].
  rewrite !trace_subscribe. cbn [trace emit set_outstanding set_promises].
  by rewrite <- app_assoc.
Qed.

(** How often the handler is entered and how often [$disconnect] is called
    do not say where the call is made: a script that calls [$disconnect]
    beside the chain has the same counts.  What tells the two apart is what
    follows the entry of the handler. *)
Example disconnect_outside_differs :
  (fun s => (finally_runs (trace s), List.filter is_disconnect (calls (trace s)),
             take 2 (from_finally (trace s))))
    <$> run fuel (disconnect_outside main) []
  = Some (1, [c_disconnect],
          [EvFinally; EvSettle (OAsync "onFinally") (Fulfilled VUndefined)]).
Proof. vm_compute. reflexivity. Qed.

(** *** The claims *)

(** C1: one client is constructed, first of all; every call is made on it;
    [$disconnect] is called once, by the finally handler: the handler is
    entered once, after the promise of [main] has settled, no
    [$disconnect] is called before that, and the first thing that happens
    after the entry is the call.  This holds in every run of the script and
    whichever way the promise of [main] settles.  The handler the script
    registers is [on_finally], which calls [$disconnect] whenever it is
    run. *)
Theorem C1_single_client_released :
  (forall env, exists s,
      run fuel server env = Some s /\
      head (trace s) = Some (EvNew 0) /\
      constructed (trace s) = [0] /\
      receiver <$> calls (trace s) = replicate (length (calls (trace s))) 0 /\
      finally_runs (trace s) = 1 /\
      List.filter is_disconnect (calls (trace s)) = [c_disconnect] /\
      settled_of (is_async "main") (before_finally (trace s)) = [Fulfilled VUndefined] /\
      List.filter is_disconnect (calls (before_finally (trace s))) = [] /\
      take 2 (from_finally (trace s)) = [EvFinally; EvCall c_disconnect]) /\
  (forall o env, exists s,
      run fuel (top_level (settling o)) env = Some s /\
      head (trace s) = Some (EvNew 0) /\
      constructed (trace s) = [0] /\
      settled_of (is_async "main") (trace s) = [o] /\
      finally_runs (trace s) = 1 /\
      calls (trace s) = [c_disconnect] /\
      settled_of (is_async "main") (before_finally (trace s)) = [o] /\
      calls (before_finally (trace s)) = [] /\
      take 2 (from_finally (trace s)) = [EvFinally; EvCall c_disconnect]) /\
  finally_handlers (loaded server) = [on_finally 0] /\
  (forall o, finally_handlers (loaded (top_level (settling o))) = [on_finally 0]) /\
  (forall s d o,
      trace (run_job (OnFinally (on_finally 0) d, o) s)
      = trace s ++ [EvFinally; EvCall c_disconnect]).
Proof.
  split_and!.
  - all_runs ltac:(repeat split; reflexivity).
  - intros [v|e]; all_runs ltac:(repeat split; reflexivity).
  - reflexivity.
  - by intros [v|e].
  - apply on_finally_disconnects.
Qed.



(** C8: [main] does not await [reads].  Its promise is fulfilled as soon as
    the module is loaded, when the first read has only just been called;
    [$disconnect] is called before any read is answered; the catch handler
    is never entered, and a rejected read rejects the promise of [reads],
    to which nothing is ever attached. *)
Theorem C8_reads_not_awaited :
  trace (loaded server)
    = [EvNew 0; EvCall c_findUnique;
       EvSettle (OAsync "main") (Fulfilled VUndefined);
       EvSettle OScript (Fulfilled VUndefined)] /\
  forall env, exists s,
    run fuel server env = Some s /\
    take 7 (trace s) = prologue /\
    caught (trace s) = [] /\
    settled_of is_catch (trace s) = [Fulfilled VUndefined] /\
    observed "reads" s = [false] /\
    reasons (settled_of (is_async "reads") (trace s))
      = reasons (settled_of (fun w => match w with
                                      | OCall c => negb (is_disconnect c)
                                      | _ => false
                                      end) (trace s)).
Proof.
  split; [reflexivity|].
  all_runs ltac:(repeat split; reflexivity).
Qed.

(** C2, as stated, fails: two completed runs of [reads] need not issue the
    same calls.  When the database refuses the first read, [reads] stops
    after one call; when every read succeeds it makes four. *)
Lemma C2_counterexample :
  ~ (forall env1 env2 s1 s2,
       run fuel (invoke "reads" reads) env1 = Some s1 ->
       run fuel (invoke "reads" reads) env2 = Some s2 ->
       outstanding s1 = [] -> outstanding s2 = [] ->
       calls (trace s1) = calls (trace s2)).
Proof.
  intros H.
  assert (exists s1, run fuel (invoke "reads" reads) (all_fulfilled 4) = Some s1 /\
                     outstanding s1 = [] /\ calls (trace s1) = reads_calls)
    as (s1 & R1 & O1 & C1) by run_to_end.
  assert (exists s2, run fuel (invoke "reads" reads)
                         [(0, Rejected (VStr "connection refused"))] = Some s2 /\
                     outstanding s2 = [] /\ calls (trace s2) = [c_findUnique])
    as (s2 & R2 & O2 & C2) by run_to_end.
  specialize (H _ _ _ _ R1 R2 O1 O2). rewrite C1, C2 in H. discriminate H.
Qed.

(** C2, amended: [reads] and [writes] make their calls one after the other,
    whatever the calls return: every run issues an initial segment of the
    same sequence, one call further for every call that is fulfilled; the
    first call to be rejected ends the function, which is rejected with
    that same reason and with nothing else. *)
Theorem C2_straight_line_calls :
  (forall env, exists s,
      run fuel (invoke "reads" reads) env = Some s /\
      calls (trace s)
        = take (S (length (fulfilments (answers (trace s))))) reads_calls /\
      reasons (settled_of (is_async "reads") (trace s)) = reasons (answers (trace s)) /\
      fulfilments (settled_of (is_async "reads") (trace s))
        = if bool_decide (length (fulfilments (answers (trace s))) = 4)
          then [VUndefined] else []) /\
  (forall env, exists s,
      run fuel (invoke "writes" writes) env = Some s /\
      calls (trace s)
        = take (S (length (fulfilments (answers (trace s))))) writes_calls /\
      reasons (settled_of (is_async "writes") (trace s)) = reasons (answers (trace s)) /\
      fulfilments (settled_of (is_async "writes") (trace s))
        = if bool_decide (length (fulfilments (answers (trace s))) = 3)
          then [VUndefined] else []).
Proof.
  split; all_runs ltac:(repeat split; reflexivity).
Qed.

(** What [writes] would do, were it called. *)
Example writes_would_write :
  List.filter issues_write writes_calls = writes_calls /\
  length (Schema.rows (Store.after_writes 0 Store.dense) "User") = 4 /\
  (fun p : Schema.row => p !! "published") <$> Schema.rows (Store.after_writes 0 Store.dense) "Post"
    = [Some (DBool false); Some (DBool false)].
Proof. vm_compute. repeat split; reflexivity. Qed.

(** C9: [writes] is never called: no run of the script holds a promise of
    [writes], none issues a writing call, and the calls a run does issue
    leave every database as it was. *)
Theorem C9_writes_never_invoked :
  forall env, exists s,
    run fuel server env = Some s /\
    observed "writes" s = [] /\
    List.filter issues_write (calls (trace s)) = [] /\
    forall now auto d,
      foldl (fun d c => Store.perform Schema.schema_prisma now auto (what c) d) d
            (calls (trace s)) = d.
Proof.
  all_runs ltac:(repeat split; reflexivity).
Qed.

End ServerFacts.

(** ** Facts about the schema and the store *)

Module SchemaFacts.
Import Schema Store.

(** *** Keys of a column *)

Lemma key_elem_of f (rs : list row) r k :
  r ∈ rs -> key f r = Some k -> k ∈ keys f rs.
Proof. intros Hr Hk. apply list_elem_of_omap. eauto. Qed.

Lemma key_lookup f (r : row) k : key f r = Some k <-> r !! f = Some k /\ k <> DNull.
Proof.
  unfold key. destruct (r !! f) as [[]|]; split; intros; simplify_eq; try done;
    destruct_and?; simplify_eq; done.
Qed.

Lemma keys_cons f (r : row) (rs : list row) :
  keys f (r :: rs) = option_list (key f r) ++ keys f rs.
Proof. unfold keys. simpl. by destruct (key f r). Qed.

Lemma keys_app f (rs1 rs2 : list row) :
  keys f (rs1 ++ rs2) = keys f rs1 ++ keys f rs2.
Proof. apply omap_app. Qed.

Lemma keys_tail_NoDup f (r : row) (rs : list row) :
  NoDup (keys f (r :: rs)) -> NoDup (keys f rs).
Proof. rewrite keys_cons. intros H. by apply NoDup_app in H as (_ & _ & ?). Qed.

Lemma keys_head_fresh f (r : row) (rs : list row) k :
  NoDup (keys f (r :: rs)) -> key f r = Some k -> k ∉ keys f rs.
Proof.
  rewrite keys_cons. intros H E. rewrite E in H. simpl in H.
  by apply NoDup_cons in H as [? _].
Qed.

(** Two rows at different places never share a key of a duplicate-free
    column. *)
Lemma keys_inj f (rs : list row) :
  NoDup (keys f rs) ->
  forall i j r1 r2 k,
    rs !! i = Some r1 -> rs !! j = Some r2 ->
    key f r1 = Some k -> key f r2 = Some k -> i = j.
Proof.
  induction rs as [|r rs IH]; intros Hnd i j r1 r2 k H1 H2 K1 K2; [done|].
  destruct i as [|i], j as [|j]; simplify_eq/=; try done.
  - destruct (keys_head_fresh _ _ _ _ Hnd K1).
    apply (key_elem_of f rs r2 k); [|done]. by eapply list_elem_of_lookup_2.
  - destruct (keys_head_fresh _ _ _ _ Hnd K2).
    apply (key_elem_of f rs r1 k); [|done]. by eapply list_elem_of_lookup_2.
  - f_equal. eapply IH; eauto using keys_tail_NoDup.
Qed.

(** At most one row holds a given key. *)
Lemma keys_at_most_one f (rs : list row) k :
  NoDup (keys f rs) ->
  length (List.filter (fun r => bool_decide (key f r = Some k)) rs) <= 1.
Proof.
  induction rs as [|r rs IH]; intros Hnd; simpl; [lia|].
  case_bool_decide as E; simpl; [|eauto using keys_tail_NoDup].
  assert (List.filter (fun r => bool_decide (key f r = Some k)) rs = []) as ->;
    [|simpl; lia].
  destruct (List.filter _ rs) as [|r' l] eqn:F; [done|].
  assert (In r' (List.filter (fun r => bool_decide (key f r = Some k)) rs)) as Hin
    by (rewrite F; by left).
  apply List.filter_In in Hin as [Hin Hk]. apply bool_decide_eq_true in Hk.
  destruct (keys_head_fresh _ _ _ _ Hnd E).
  apply (key_elem_of f rs r' k); [|done]. by apply list_elem_of_In.
Qed.

(** *** Reading the states a schema admits *)

Lemma admissible_model sch d m :
  admissible sch d -> m ∈ sch -> model_ok d m.
Proof. unfold admissible. rewrite Forall_forall. auto. Qed.

Lemma admissible_unique sch d m f :
  admissible sch d -> m ∈ sch -> f ∈ m_fields m -> is_unique f ->
  NoDup (keys (f_name f) (rows d (m_name m))).
Proof.
  intros H Hm Hf Hu. destruct (admissible_model _ _ _ H Hm) as (_ & U & _).
  rewrite Forall_forall in U. by apply U.
Qed.

Lemma admissible_cell sch d m f r :
  admissible sch d -> m ∈ sch -> f ∈ m_fields m -> r ∈ rows d (m_name m) ->
  cell_ok r f.
Proof.
  intros H Hm Hf Hr. destruct (admissible_model _ _ _ H Hm) as (T & _ & _).
  rewrite Forall_forall in T. specialize (T r Hr).
  unfold row_ok in T. apply Is_true_true in T.
  rewrite forallb_forall in T. apply Is_true_true, T. by apply list_elem_of_In.
Qed.

(** A required column holds a value of its type in every row. *)
Lemma admissible_required sch d m f t r :
  admissible sch d -> m ∈ sch -> f ∈ m_fields m -> r ∈ rows d (m_name m) ->
  f_type f = Scalar t -> f_arity f = Required ->
  exists v, r !! f_name f = Some v /\ has_type t v /\ key (f_name f) r = Some v.
Proof.
  intros H Hm Hf Hr Ht Ha. pose proof (admissible_cell _ _ _ _ _ H Hm Hf Hr) as C.
  unfold cell_ok, is_optional in C. rewrite Ht, Ha in C.
  destruct (r !! f_name f) as [v|] eqn:E; [|done].
  exists v. unfold key. rewrite E. by destruct v.
Qed.

Lemma admissible_reference sch d m f target fks ks r :
  admissible sch d -> m ∈ sch -> f ∈ m_fields m -> r ∈ rows d (m_name m) ->
  f_type f = Ref target -> foreign_key f = Some (fks, ks) ->
  exists r', r' ∈ rows d target /\ project ks r' = project fks r.
Proof.
  intros H Hm Hf Hr Ht Hk. destruct (admissible_model _ _ _ H Hm) as (_ & _ & R).
  rewrite Forall_forall in R. specialize (R f Hf).
  unfold references_ok in R. rewrite Ht, Hk in R.
  rewrite Forall_forall in R. specialize (R r Hr).
  apply list_elem_of_fmap in R as (r' & E & Hin). eauto.
Qed.

(** *** Writes keep the state admissible *)

Lemma keys_Permutation f (rs1 rs2 : list row) :
  rs1 ≡ₚ rs2 -> keys f rs1 ≡ₚ keys f rs2.
Proof. intros H. unfold keys. by rewrite H. Qed.

Lemma keys_add_NoDup f (r : row) (others : list row) :
  NoDup (keys f others) ->
  (forall k, key f r = Some k -> k ∉ keys f others) ->
  NoDup (keys f (r :: others)).
Proof.
  intros Hnd Hfresh. rewrite keys_cons.
  destruct (key f r) as [k|]; simpl; [|done].
  apply NoDup_cons. auto.
Qed.

Lemma delete_out_of_range {A} (l : list A) i : l !! i = None -> delete i l = l.
Proof.
  revert i. induction l as [|a l IH]; intros [|i] H; simplify_eq/=; try done.
  f_equal. by apply IH.
Qed.

Lemma keys_delete_NoDup f (rs : list row) i :
  NoDup (keys f rs) -> NoDup (keys f (delete i rs)).
Proof.
  intros Hnd. destruct (rs !! i) as [x|] eqn:E.
  - apply (keys_tail_NoDup f x).
    by rewrite <- (keys_Permutation f _ _ (delete_Permutation rs i x E)).
  - by rewrite delete_out_of_range.
Qed.

Lemma insert_Permutation (rs : list row) i r x :
  rs !! i = Some x -> <[i := r]> rs ≡ₚ r :: delete i rs.
Proof.
  intros E. apply lookup_lt_Some in E.
  rewrite insert_take_drop by done. rewrite delete_take_drop.
  by rewrite <- Permutation_middle.
Qed.

Lemma find_model_Some sch m mdl :
  find_model sch m = Some mdl -> mdl ∈ sch /\ m_name mdl = m.
Proof.
  intros H. apply List.find_some in H as [Hin Hn].
  split; [by apply list_elem_of_In|]. by apply bool_decide_eq_true in Hn.
Qed.

Lemma same_name sch (m1 m2 : model) :
  NoDup (m_name <$> sch) -> m1 ∈ sch -> m2 ∈ sch -> m_name m1 = m_name m2 -> m1 = m2.
Proof.
  intros Hnd H1 H2 E.
  apply list_elem_of_lookup in H1 as [i Hi], H2 as [j Hj].
  assert (i = j) as ->; [|congruence].
  apply (NoDup_lookup _ i j (m_name m1) Hnd); rewrite list_lookup_fmap.
  - by rewrite Hi.
  - rewrite Hj. simpl. by rewrite E.
Qed.

Lemma rows_insert_eq (d : db) m rs : rows (<[m := rs]> d) m = rs.
Proof. unfold rows. by rewrite lookup_insert_eq. Qed.

Lemma rows_insert_ne (d : db) m m' rs : m <> m' -> rows (<[m := rs]> d) m' = rows d m'.
Proof. intros. unfold rows. by rewrite lookup_insert_ne. Qed.

Lemma fresh_keys_spec mdl r others f k :
  fresh_keys mdl r others -> f ∈ m_fields mdl -> is_unique f ->
  key (f_name f) r = Some k -> k ∉ keys (f_name f) others.
Proof.
  unfold fresh_keys. intros H Hf Hu Hk. apply Is_true_true in H.
  rewrite forallb_forall in H. specialize (H f ltac:(by apply list_elem_of_In)).
  apply Is_true_true in Hu. rewrite Hu, Hk in H. simpl in H.
  by apply bool_decide_eq_true in H.
Qed.

(** One table is replaced by rows that fit its model and are duplicate-free
    in its unique columns, and no reference dangles afterwards. *)
Lemma table_update sch (d : db) m mdl rs :
  NoDup (m_name <$> sch) ->
  find_model sch m = Some mdl ->
  admissible sch d ->
  Forall (fun r => row_ok mdl r) rs ->
  (forall f, f ∈ m_fields mdl -> is_unique f -> NoDup (keys (f_name f) rs)) ->
  references_hold sch (<[m := rs]> d) ->
  admissible sch (<[m := rs]> d).
Proof.
  intros Hnd Hfind Hadm Hrows Huniq Href.
  apply find_model_Some in Hfind as [Hin Hname].
  apply bool_decide_unpack in Href. rewrite Forall_forall in Href.
  apply Forall_forall. intros m' Hm'.
  destruct (decide (m_name m' = m)) as [E|NE].
  - assert (m' = mdl) as -> by (apply (same_name sch); congruence).
    repeat split; rewrite ?Hname, ?rows_insert_eq; [done| |by apply Href].
    apply Forall_forall. intros f Hf Hu. rewrite Hname, rows_insert_eq. auto.
  - destruct (admissible_model _ _ _ Hadm Hm') as (T & U & _).
    repeat split; [by rewrite rows_insert_ne| |by apply Href].
    apply Forall_forall. intros f Hf Hu. rewrite rows_insert_ne by done.
    rewrite Forall_forall in U. by apply U.
Qed.

Lemma commit_Some sch mdl r others d' d'' :
  commit sch mdl r others d' = Some d'' ->
  d'' = d' /\ row_ok mdl r /\ fresh_keys mdl r others /\ references_hold sch d'.
Proof.
  unfold commit. destruct (row_ok mdl r); [|done].
  destruct (fresh_keys mdl r others); [|done].
  destruct (references_hold sch d'); [|done]. by intros [= <-].
Qed.

(** Every write the store accepts leads from an admissible state to an
    admissible state. *)
Lemma step_admissible sch w d d' :
  NoDup (m_name <$> sch) ->
  admissible sch d -> step sch w d = Some d' -> admissible sch d'.
Proof.
  intros Hnd Hadm Hstep.
  destruct w as [m r|m i r|m i]; simpl in Hstep;
    destruct (find_model sch m) as [mdl|] eqn:Hfind; try done; simpl in Hstep;
    pose proof (find_model_Some _ _ _ Hfind) as [Hin Hname];
    destruct (admissible_model _ _ _ Hadm Hin) as (T & U & _);
    rewrite Hname in T; rewrite Forall_forall in U.
  - apply commit_Some in Hstep as (-> & Hrow & Hfresh & Href).
    apply (table_update sch d m mdl); try done.
    + apply Forall_app. split; [done|]. by apply Forall_singleton.
    + intros f Hf Hu.
      rewrite (keys_Permutation _ _ (r :: rows d m)) by (by rewrite Permutation_app_comm).
      apply keys_add_NoDup; [rewrite <- Hname; by apply U|].
      intros k. by apply (fresh_keys_spec mdl).
  - destruct (rows d m !! i) as [x|] eqn:E; try done; simpl in Hstep.
    apply commit_Some in Hstep as (-> & Hrow & Hfresh & Href).
    apply (table_update sch d m mdl); try done.
    + by apply Forall_insert.
    + intros f Hf Hu.
      rewrite (keys_Permutation _ _ _ (insert_Permutation _ i r x E)).
      apply keys_add_NoDup.
      * apply keys_delete_NoDup. rewrite <- Hname. by apply U.
      * intros k. by apply (fresh_keys_spec mdl).
  - destruct (rows d m !! i) as [x|] eqn:E; try done; simpl in Hstep.
    destruct (references_hold sch _) eqn:Href; try done.
    injection Hstep as <-.
    apply (table_update sch d m mdl); try done.
    + by apply Forall_delete.
    + intros f Hf Hu. apply keys_delete_NoDup. rewrite <- Hname. by apply U.
    + by rewrite Href.
Qed.

(** [create] with its nested rows is a sequence of accepted inserts. *)
Lemma create_in_admissible sch now auto :
  NoDup (m_name <$> sch) ->
  forall data m extra (d d' : db) (r : row),
    admissible sch d ->
    create_in sch now auto m extra data d = Some (d', r) ->
    admissible sch d'.
Proof.
  intros Hnd. fix IH 1. intros [scalars nested] m extra d d' r Hadm H.
  cbn [create_in] in H.
  destruct (find_model sch m) as [mdl|]; [|done]. cbn [mbind option_bind] in H.
  destruct (guard (known_columns mdl scalars)) as [?|]; [|done].
  cbn [mbind option_bind] in H.
  destruct (new_row mdl now _ _) as [r0|]; [|done].
  cbn [mbind option_bind] in H.
  destruct (step sch (Insert m r0) d) as [d1|] eqn:Hs; [|done].
  cbn [mbind option_bind] in H.
  apply (step_admissible _ _ _ _ Hnd Hadm) in Hs.
  clear Hadm. revert d1 Hs H.
  induction nested as [|[rel children] l IHl]; intros d1 Hadm H.
  - cbn in H. by injection H as <- <-.
  - cbn [mbind option_bind] in H.
    destruct (link sch mdl rel r0) as [tl|]; [|done]. cbn [mbind option_bind] in H.
    revert d1 Hadm H.
    induction children as [|c cs IHc]; intros d1 Hadm H.
    + cbn [mbind option_bind] in H. by apply (IHl d1).
    + cbn [mbind option_bind] in H.
      destruct (create_in sch now auto tl.1 tl.2 c d1) as [dr|] eqn:Hc; [|done].
      cbn [mbind option_bind] in H. destruct dr as [d2 r2].
      apply (IHc d2); [|done]. by apply (IH c _ _ _ _ _ Hadm Hc).
Qed.

Lemma create_each_admissible sch now auto m :
  NoDup (m_name <$> sch) ->
  forall l (d d' : db),
    admissible sch d -> create_each sch now auto m l d = Some d' -> admissible sch d'.
Proof.
  intros Hnd l. induction l as [|c l IH]; intros d d' Hadm H; simpl in H.
  - by injection H as <-.
  - destruct (create_in sch now auto m [] c d) as [[d1 r1]|] eqn:Hc; [|done].
    simpl in H. apply (IH d1); [|done].
    by apply (create_in_admissible _ _ _ Hnd _ _ _ _ _ _ Hadm Hc).
Qed.

(** Whatever the client is asked, the database stays admissible. *)
Lemma perform_admissible sch now auto q (d : db) :
  NoDup (m_name <$> sch) -> admissible sch d -> admissible sch (perform sch now auto q d).
Proof.
  intros Hnd Hadm. destruct q as [name [] [q|data incl|l]|]; try done; simpl.
  - destruct (model_of sch name) as [mdl|]; [|done]. simpl.
    destruct (create_in sch now auto (m_name mdl) [] data d) as [[d1 r1]|] eqn:Hc; [|done].
    simpl. by apply (create_in_admissible _ _ _ Hnd _ _ _ _ _ _ Hadm Hc).
  - destruct (model_of sch name) as [mdl|]; [|done]. simpl.
    destruct (create_each sch now auto (m_name mdl) l d) as [d1|] eqn:Hc; [|done].
    simpl. by apply (create_each_admissible _ _ _ _ Hnd _ _ _ Hadm Hc).
Qed.

(** *** Reading off columns *)

Lemma find_field_Some mdl fname f :
  find_field mdl fname = Some f -> f ∈ m_fields mdl /\ f_name f = fname.
Proof.
  intros H. apply List.find_some in H as [Hin Hn].
  split; [by apply list_elem_of_In|]. by apply bool_decide_eq_true in Hn.
Qed.

Lemma admissible_column sch d m mdl c f t r :
  admissible sch d -> find_model sch m = Some mdl -> find_field mdl c = Some f ->
  f_type f = Scalar t -> r ∈ rows d m ->
  column_holds r c t (is_optional f).
Proof.
  intros Hadm Hm Hf Ht Hr.
  apply find_model_Some in Hm as [Hm <-]. apply find_field_Some in Hf as [Hf <-].
  pose proof (admissible_cell _ _ _ _ _ Hadm Hm Hf Hr) as C.
  unfold cell_ok in C. rewrite Ht in C.
  destruct (r !! f_name f) as [v|] eqn:E; [|done].
  exists v. split; [done|]. destruct v; auto.
Qed.

Lemma column_key (r : row) c t :
  column_holds r c t false -> exists v, r !! c = Some v /\ key c r = Some v.
Proof.
  intros (v & E & [T|[[] _]]). exists v. split; [done|].
  unfold key. rewrite E. by destruct v, t.
Qed.

Lemma admissible_unique_column sch d m mdl c f t :
  admissible sch d -> find_model sch m = Some mdl -> find_field mdl c = Some f ->
  f_type f = Scalar t -> is_optional f = false -> is_unique f ->
  unique_column d m c.
Proof.
  intros Hadm Hm Hf Ht Hopt Hu i j r1 r2 H1 H2 E.
  pose proof (admissible_column _ _ _ _ _ _ _ r1 Hadm Hm Hf Ht
                (list_elem_of_lookup_2 _ _ _ H1)) as C1.
  pose proof (admissible_column _ _ _ _ _ _ _ r2 Hadm Hm Hf Ht
                (list_elem_of_lookup_2 _ _ _ H2)) as C2.
  rewrite Hopt in C1, C2.
  apply column_key in C1 as (v1 & E1 & K1), C2 as (v2 & E2 & K2).
  assert (v1 = v2) as <- by congruence.
  apply find_model_Some in Hm as [Hm <-]. apply find_field_Some in Hf as [Hf <-].
  eapply (keys_inj _ _ (admissible_unique _ _ _ _ Hadm Hm Hf Hu)); eauto.
Qed.

Lemma schema_prisma_names : NoDup (m_name <$> schema_prisma).
Proof. apply (bool_decide_unpack _). vm_compute. exact I. Qed.

Lemma example_db_admissible : admissible schema_prisma example_db.
Proof. apply (bool_decide_unpack _). vm_compute. exact I. Defined.

(** *** References *)

Lemma referenced_Some (d : db) target fks ks (r : row) k :
  referenced d target fks ks r = Some k ->
  exists u, rows d target !! k = Some u /\ project ks u = project fks r.
Proof.
  unfold referenced. intros H. apply fmap_Some in H as ([k' u] & H & ->).
  apply list_find_Some in H as (? & ? & _). eauto.
Qed.

Lemma referenced_is_Some (d : db) target fks ks (r r' : row) :
  r' ∈ rows d target -> project ks r' = project fks r ->
  is_Some (referenced d target fks ks r).
Proof.
  intros Hin E. unfold referenced. apply fmap_is_Some.
  by apply (list_find_elem_of _ _ r').
Qed.

Lemma project_one (r1 r2 : row) c1 c2 :
  project [c1] r1 = project [c2] r2 <-> r1 !! c1 = r2 !! c2.
Proof. unfold project. simpl. split; [by intros [= ?]|by intros ->]. Qed.

(** A row that refers to a user refers to exactly one. *)
Lemma one_referenced_user (d : db) fk (r : row) :
  admissible schema_prisma d ->
  (exists u, u ∈ rows d "User" /\ project ["id"] u = project [fk] r) ->
  exists k u,
    referenced d "User" [fk] ["id"] r = Some k /\
    rows d "User" !! k = Some u /\ u !! "id" = r !! fk /\
    forall k' u', rows d "User" !! k' = Some u' -> u' !! "id" = r !! fk -> k' = k.
Proof.
  intros Hadm (u0 & Hin & E0).
  destruct (referenced_is_Some d "User" [fk] ["id"] r u0 Hin E0) as [k Hk].
  destruct (referenced_Some _ _ _ _ _ _ Hk) as (u & Hu & E).
  apply project_one in E. exists k, u. repeat split; try done.
  intros k' u' Hu' E'.
  apply (admissible_unique_column schema_prisma d "User" User "id"
           (Field "id" (Scalar TInt) Required [Id; Default Autoincrement]) TInt
           Hadm eq_refl eq_refl eq_refl eq_refl I k' k u' u Hu' Hu).
  congruence.
Qed.

(** A user has at most one row pointing at it through a unique column. *)
Lemma at_most_one_pointing (d : db) m fk (u : row) :
  NoDup (keys fk (rows d m)) ->
  column_holds u "id" TInt false ->
  length (List.filter (fun p => bool_decide (project [fk] p = project ["id"] u))
                      (rows d m)) <= 1.
Proof.
  intros Hnd C. apply column_key in C as (v & E & K).
  apply key_lookup in K as [_ Hv].
  rewrite (List.filter_ext _ (fun p => bool_decide (key fk p = Some v)));
    [by apply keys_at_most_one|].
  intros p. apply bool_decide_ext. rewrite project_one, E, key_lookup.
  split; [by intros ->|by intros [-> _]].
Qed.

(** *** Rows made by [create] *)

Lemma new_row_lookup mdl now id (given r : row) f :
  NoDup (f_name <$> m_fields mdl) ->
  new_row mdl now id given = Some r ->
  f ∈ m_fields mdl -> is_scalar f ->
  is_Some (r !! f_name f) /\ r !! f_name f = initial now id given f.
Proof.
  unfold new_row. generalize (m_fields mdl) as fs.
  intros fs. revert r. induction fs as [|f0 fs IH]; intros r Hnd Hr Hf Hs.
  { by apply elem_of_nil in Hf. }
  simpl in Hr, Hnd. apply NoDup_cons in Hnd as [Hfresh Hnd].
  destruct (foldr _ _ fs) as [r0|] eqn:E0; [|done]. simpl in Hr.
  apply elem_of_cons in Hf as [->|Hf].
  - destruct (is_scalar f0); [|done].
    destruct (initial now id given f0) as [v|]; [|done]. simpl in Hr.
    injection Hr as <-. rewrite lookup_insert_eq. eauto.
  - assert (f_name f0 <> f_name f) as Hne.
    { intros E. apply Hfresh. rewrite E. by apply list_elem_of_fmap_2. }
    destruct (IH r0 Hnd eq_refl Hf Hs) as [? ?].
    destruct (is_scalar f0).
    + destruct (initial now id given f0) as [v|]; [|done]. simpl in Hr.
      injection Hr as <-. by rewrite lookup_insert_ne.
    + by injection Hr as <-.
Qed.

Lemma create_in_row sch now auto m extra scalars nested (d d' : db) (r : row) :
  create_in sch now auto m extra (Data scalars nested) d = Some (d', r) ->
  exists mdl d1,
    find_model sch m = Some mdl /\
    new_row mdl now (auto m (rows d m)) (list_to_map (extra ++ scalars)) = Some r /\
    step sch (Insert m r) d = Some d1.
Proof.
  intros H. cbn [create_in] in H.
  destruct (find_model sch m) as [mdl|] eqn:Hm; [|done]. cbn [mbind option_bind] in H.
  destruct (guard (known_columns mdl scalars)) as [?|]; [|done].
  cbn [mbind option_bind] in H.
  destruct (new_row mdl now _ _) as [r0|] eqn:Hr; [|done].
  cbn [mbind option_bind] in H.
  destruct (step sch (Insert m r0) d) as [d1|] eqn:Hs; [|done].
  cbn [mbind option_bind] in H.
  match type of H with
  | context [ (?F nested d1) ] => destruct (F nested d1) as [d2|]; [|done]
  end.
  cbn [mbind option_bind] in H. injection H as <- <-. eauto.
Qed.

(** The store at work: a second user with Alice's email is refused, one
    with an email of their own is accepted, and so is no profile for a user
    who has one. *)
Example step_examples :
  let user id email : row :=
    list_to_map [("id", DInt id); ("email", DStr email); ("name", DNull);
                 ("createdAt", DDate 30); ("updatedAt", DDate 30)] in
  let profile id uid : row :=
    list_to_map [("id", DInt id); ("bio", DNull); ("avatar", DNull);
                 ("userId", DInt uid)] in
  step schema_prisma (Insert "User" (user 3%Z "alice@example.com")) example_db = None /\
  is_Some (step schema_prisma (Insert "User" (user 3%Z "carol@example.com")) example_db) /\
  step schema_prisma (Insert "Profile" (profile 2%Z 2%Z)) example_db = None /\
  is_Some (step schema_prisma (Insert "Profile" (profile 2%Z 1%Z)) example_db) /\
  step schema_prisma (Insert "Profile" (profile 2%Z 7%Z)) example_db = None /\
  step schema_prisma (Remove "User" 1) example_db = None.
Proof.
  split_and!; try (vm_compute; reflexivity);
    apply (bool_decide_unpack _); vm_compute; exact I.
Qed.

(** *** The claims *)

(** C4: in every state the schema admits no two users share an email and no
    two tags share a name, and both still hold after any write the store
    accepts and after any request made of the client. *)
Theorem C4_unique_email_and_tag_name (d : db) :
  admissible schema_prisma d ->
  unique_column d "User" "email" /\
  unique_column d "Tag" "name" /\
  (forall w d', step schema_prisma w d = Some d' ->
     unique_column d' "User" "email" /\ unique_column d' "Tag" "name") /\
  (forall now auto q,
     unique_column (perform schema_prisma now auto q d) "User" "email" /\
     unique_column (perform schema_prisma now auto q d) "Tag" "name").
Proof.
  assert (forall d0, admissible schema_prisma d0 ->
            unique_column d0 "User" "email" /\ unique_column d0 "Tag" "name") as U.
  { intros d0 H. split.
    - by apply (admissible_unique_column schema_prisma d0 "User" User "email"
                  (Field "email" (Scalar TString) Required [Unique]) TString).
    - by apply (admissible_unique_column schema_prisma d0 "Tag" Tag "name"
                  (Field "name" (Scalar TString) Required [Unique]) TString). }
  intros H. destruct (U d H) as [? ?]. split_and!; try done.
  - intros w d' Hs. apply U. eapply step_admissible; eauto using schema_prisma_names.
  - intros now auto q. apply U. apply perform_admissible; auto using schema_prisma_names.
Qed.

Lemma C4_witness :
  admissible schema_prisma example_db /\
  unique_column example_db "User" "email" /\
  unique_column example_db "Tag" "name".
Proof.
  assert (admissible schema_prisma example_db) as Hadm.
  { apply (bool_decide_unpack _). vm_compute. exact I. }
  split; [exact Hadm|].
  destruct (C4_unique_email_and_tag_name example_db Hadm) as (? & ? & _). by split.
Defined.

(** C5: [Profile.user] is a one-to-one relation stored in the unique column
    [userId]; in every state the schema admits each profile refers to
    exactly one user, a user has at most one profile, and sending a profile
    to its user is injective. *)
Theorem C5_profile_one_to_one (d : db) :
  admissible schema_prisma d ->
  kind_of schema_prisma "Profile" "user" = Some ("User", OneToOne) /\
  foreign_key <$> find_field Profile "user" = Some (Some (["userId"], ["id"])) /\
  is_unique <$> find_field Profile "userId" = Some true /\
  (forall p, p ∈ rows d "Profile" ->
     exists k u,
       owner d p = Some k /\ rows d "User" !! k = Some u /\
       u !! "id" = p !! "userId" /\
       forall k' u', rows d "User" !! k' = Some u' ->
                     u' !! "id" = p !! "userId" -> k' = k) /\
  (forall u, u ∈ rows d "User" -> length (profiles_of d u) <= 1) /\
  (forall i j p q,
     rows d "Profile" !! i = Some p -> rows d "Profile" !! j = Some q ->
     owner d p = owner d q -> i = j).
Proof.
  intros Hadm.
  assert (forall p, p ∈ rows d "Profile" ->
            exists k u,
              owner d p = Some k /\ rows d "User" !! k = Some u /\
              u !! "id" = p !! "userId" /\
              forall k' u', rows d "User" !! k' = Some u' ->
                            u' !! "id" = p !! "userId" -> k' = k) as One.
  { intros p Hp. apply (one_referenced_user d "userId" p Hadm).
    apply (admissible_reference schema_prisma d Profile
             (Field "user" (Ref "User") Required [Relation ["userId"] ["id"]])
             "User" ["userId"] ["id"] p Hadm); try done; set_solver. }
  repeat split; try done.
  - intros u Hu. apply at_most_one_pointing.
    + apply (admissible_unique schema_prisma d Profile
               (Field "userId" (Scalar TInt) Required [Unique]) Hadm);
        [set_solver|set_solver|done].
    + by apply (admissible_column schema_prisma d "User" User "id"
                  (Field "id" (Scalar TInt) Required [Id; Default Autoincrement])).
  - intros i j p q Hp Hq E.
    destruct (One p (list_elem_of_lookup_2 _ _ _ Hp)) as (k & u & Ok & Hu & Eu & _).
    destruct (One q (list_elem_of_lookup_2 _ _ _ Hq)) as (k' & u' & Ok' & Hu' & Eu' & _).
    assert (k' = k) as -> by congruence.
    apply (admissible_unique_column schema_prisma d "Profile" Profile "userId"
             (Field "userId" (Scalar TInt) Required [Unique]) TInt
             Hadm eq_refl eq_refl eq_refl eq_refl I i j p q Hp Hq).
    congruence.
Qed.

Lemma C5_witness :
  admissible schema_prisma example_db /\
  (forall u, u ∈ rows example_db "User" -> length (profiles_of example_db u) <= 1) /\
  (forall i j p q,
     rows example_db "Profile" !! i = Some p -> rows example_db "Profile" !! j = Some q ->
     owner example_db p = owner example_db q -> i = j).
Proof.
  assert (admissible schema_prisma example_db) as Hadm.
  { apply (bool_decide_unpack _). vm_compute. exact I. }
  split; [exact Hadm|].
  pose proof (C5_profile_one_to_one example_db Hadm) as H.
  do 4 (destruct H as [_ H]). exact H.
Defined.

Lemma Post_names : NoDup (f_name <$> m_fields Post).
Proof. apply (bool_decide_unpack _). vm_compute. exact I. Qed.

(** *** Posts made by [create] *)











Lemma User_names : NoDup (f_name <$> m_fields User).
Proof. apply (bool_decide_unpack _). vm_compute. exact I. Qed.

(** C7: the User model, column by column; [name] is its only optional
    column; every user the schema admits holds the columns with their
    types, and has at most one profile. *)
Theorem C7_user_entity (d : db) :
  admissible schema_prisma d ->
  (* the declaration *)
  fields_where is_scalar User = ["id"; "email"; "name"; "createdAt"; "updatedAt"] /\
  fields_where (fun f => is_scalar f && is_optional f) User = ["name"] /\
  fields_where is_unique User = ["id"; "email"] /\
  kind_of schema_prisma "User" "posts" = Some ("Post", OneToMany) /\
  f_arity <$> find_field User "posts" = Some Many /\
  kind_of schema_prisma "User" "profile" = Some ("Profile", OneToOne) /\
  f_arity <$> find_field User "profile" = Some Optional /\
  (* the rows *)
  unique_column d "User" "id" /\
  unique_column d "User" "email" /\
  (forall u, u ∈ rows d "User" ->
     column_holds u "id" TInt false /\
     column_holds u "email" TString false /\
     column_holds u "name" TString true /\
     column_holds u "createdAt" TDateTime false /\
     column_holds u "updatedAt" TDateTime false /\
     length (profiles_of d u) <= 1).
Proof.
  intros Hadm.
  assert (forall u, u ∈ rows d "User" -> column_holds u "id" TInt false) as Cid.
  { intros u Hu.
    by apply (admissible_column schema_prisma d "User" User "id"
                (Field "id" (Scalar TInt) Required [Id; Default Autoincrement])). }
  repeat split; try done; auto.
  - by apply (admissible_unique_column schema_prisma d "User" User "id"
                (Field "id" (Scalar TInt) Required [Id; Default Autoincrement]) TInt).
  - by apply (admissible_unique_column schema_prisma d "User" User "email"
                (Field "email" (Scalar TString) Required [Unique]) TString).
  - by apply (admissible_column schema_prisma d "User" User "email"
                (Field "email" (Scalar TString) Required [Unique])).
  - by apply (admissible_column schema_prisma d "User" User "name"
                (Field "name" (Scalar TString) Optional [])).
  - by apply (admissible_column schema_prisma d "User" User "createdAt"
                (Field "createdAt" (Scalar TDateTime) Required [Default Now])).
  - by apply (admissible_column schema_prisma d "User" User "updatedAt"
                (Field "updatedAt" (Scalar TDateTime) Required [UpdatedAt])).
  - apply at_most_one_pointing; [|auto].
    apply (admissible_unique schema_prisma d Profile
             (Field "userId" (Scalar TInt) Required [Unique]) Hadm);
      [set_solver|set_solver|done].
Qed.

Lemma C7_witness :
  admissible schema_prisma example_db /\
  unique_column example_db "User" "id" /\
  unique_column example_db "User" "email".
Proof.
  assert (admissible schema_prisma example_db) as Hadm.
  { apply (bool_decide_unpack _). vm_compute. exact I. }
  split; [exact Hadm|].
  pose proof (C7_user_entity example_db Hadm) as H.
  do 7 (destruct H as [_ H]). destruct H as (? & ? & _). by split.
Defined.

(** A user may own no post or several. *)
Example zero_or_many_posts :
  admissible schema_prisma example_db /\
  (fun u => length (default [] (snd <$> related_rows schema_prisma example_db "User" "posts" u)))
    <$> rows example_db "User" = [0; 2].
Proof. split; [apply (bool_decide_unpack _)|]; vm_compute; done. Qed.

End SchemaFacts.

(** ** Facts about [findMany] *)

Module QueryFacts.
Import Schema Store Query Server.

(** *** The order [orderBy] asks for *)

Lemma string_compare_trans s1 : forall s2 s3,
  String.compare s1 s2 <> Gt -> String.compare s2 s3 <> Gt ->
  String.compare s1 s3 <> Gt.
Proof.
  induction s1 as [|c1 s1 IH]; intros [|c2 s2] [|c3 s3]; simpl; try done.
  unfold Ascii.compare.
  destruct (N.compare_spec (N_of_ascii c1) (N_of_ascii c2)),
           (N.compare_spec (N_of_ascii c2) (N_of_ascii c3)),
           (N.compare_spec (N_of_ascii c1) (N_of_ascii c3));
    try done; try lia.
  apply IH.
Qed.

Lemma string_leb_trans s1 s2 s3 :
  String.leb s1 s2 = true -> String.leb s2 s3 = true -> String.leb s1 s3 = true.
Proof.
  unfold String.leb. intros H1 H2.
  pose proof (string_compare_trans s1 s2 s3) as T.
  destruct (String.compare s1 s2), (String.compare s2 s3), (String.compare s1 s3);
    try done; exfalso; by apply T.
Qed.

Lemma datum_leb_spec a b :
  datum_leb a b = true <->
  (tag a < tag b)%Z \/
  (tag a = tag b /\
   ((num a < num b)%Z \/ (num a = num b /\ String.leb (str a) (str b) = true))).
Proof.
  unfold datum_leb.
  destruct (Z.ltb_spec (tag a) (tag b)), (Z.ltb_spec (tag b) (tag a)),
           (Z.ltb_spec (num a) (num b)), (Z.ltb_spec (num b) (num a));
    (split; intros Hh;
     first [ done | lia
           | right; split; [lia|]; right; split; [lia|done]
           | destruct Hh as [?|[? [?|[? ?]]]]; first [lia|done] ]).
Qed.

Lemma datum_leb_total a b : datum_leb a b = true \/ datum_leb b a = true.
Proof.
  rewrite !datum_leb_spec.
  destruct (Z.lt_trichotomy (tag a) (tag b)) as [?|[?|?]],
           (Z.lt_trichotomy (num a) (num b)) as [?|[?|?]],
           (String.leb_total (str a) (str b));
    first [ left; left; lia | right; left; lia
          | left; right; split; [lia|]; left; lia
          | right; right; split; [lia|]; left; lia
          | left; right; split; [lia|]; right; split; [lia|done]
          | right; right; split; [lia|]; right; split; [lia|done] ].
Qed.

Lemma datum_leb_trans a b c :
  datum_leb a b = true -> datum_leb b c = true -> datum_leb a c = true.
Proof.
  rewrite !datum_leb_spec.
  intros [?|[? [?|[? ?]]]] [?|[? [?|[? ?]]]];
    first [ left; lia
          | right; split; [lia|];
            first [ left; lia
                  | right; split; [lia|]; by apply (string_leb_trans _ (str b)) ] ].
Qed.

Lemma row_leb_total by_ (r1 r2 : row) : row_leb by_ r1 r2 \/ row_leb by_ r2 r1.
Proof.
  induction by_ as [|[f dir] rest IH]; simpl; [by left|].
  destruct (before dir (default DNull (r1 !! f)) (default DNull (r2 !! f))),
           (before dir (default DNull (r2 !! f)) (default DNull (r1 !! f)));
    simpl; auto.
Qed.

Lemma row_leb_trans by_ (r1 r2 r3 : row) :
  row_leb by_ r1 r2 -> row_leb by_ r2 r3 -> row_leb by_ r1 r3.
Proof.
  induction by_ as [|[f dir] rest IH]; simpl; [done|].
  set (a := default DNull (r1 !! f)). set (b := default DNull (r2 !! f)).
  set (c := default DNull (r3 !! f)).
  pose proof (datum_leb_total a b). pose proof (datum_leb_total b c).
  pose proof (datum_leb_total a c).
  pose proof (datum_leb_trans a b c). pose proof (datum_leb_trans a c b).
  pose proof (datum_leb_trans b a c). pose proof (datum_leb_trans b c a).
  pose proof (datum_leb_trans c a b). pose proof (datum_leb_trans c b a).
  unfold before.
  destruct dir, (datum_leb a b), (datum_leb b a), (datum_leb b c), (datum_leb c b),
           (datum_leb a c), (datum_leb c a); simpl; try done; intuition congruence.
Qed.

#[local] Instance row_leb_Total by_ : Total (fun r1 r2 : row => Is_true (row_leb by_ r1 r2)).
Proof. intros r1 r2. apply row_leb_total. Qed.

#[local] Instance row_leb_Transitive by_ :
  Transitive (fun r1 r2 : row => Is_true (row_leb by_ r1 r2)).
Proof. intros r1 r2 r3. apply row_leb_trans. Qed.

(** Under [orderBy: { createdAt: "desc" }] a row may come before another
    exactly when it is not older. *)
Lemma newest_first (r1 r2 : row) t1 t2 :
  r1 !! "createdAt" = Some (DDate t1) -> r2 !! "createdAt" = Some (DDate t2) ->
  row_leb [("createdAt", Desc)] r1 r2 <-> (t2 <= t1)%Z.
Proof.
  intros E1 E2. unfold row_leb, before, datum_leb. rewrite E1, E2. simpl.
  destruct (Z.ltb_spec t1 t2), (Z.ltb_spec t2 t1); simpl; split; try done; lia.
Qed.

(** There is always an order [orderBy] allows, and so a result. *)
Lemma an_order_sorts sch (d : db) m q : sorts sch d m q (an_order sch d m q).
Proof.
  split; [apply merge_sort_Permutation|].
  apply (StronglySorted_merge_sort _).
Qed.

Lemma findMany_an_order sch (d : db) m q :
  findMany sch d m q (page sch d m q (an_order sch d m q)).
Proof. exists (an_order sch d m q). split; [apply an_order_sorts|done]. Qed.

Lemma related_posts (d : db) (u : row) :
  related_rows schema_prisma d "User" "posts" u
  = Some ("Post",
          List.filter (fun p => bool_decide (project ["authorId"] p = project ["id"] u))
                      (rows d "Post")).
Proof. reflexivity. Qed.

(** The [where] of the scan: the user has a published post. *)
Lemma passes_published (d : db) (u : row) :
  passes schema_prisma d "User" (q_where findMany_query) u <->
  exists p, p ∈ rows d "Post" /\
            p !! "authorId" = u !! "id" /\ p !! "published" = Some (DBool true).
Proof.
  unfold passes. cbn [q_where findMany_query forallb holds].
  rewrite related_posts, andb_true_r. rewrite Is_true_true, existsb_exists.
  split.
  - intros (p & Hin & Hp). apply List.filter_In in Hin as [Hin E].
    apply bool_decide_eq_true in E. unfold project in E. simpl in E.
    rewrite andb_true_r in Hp. apply bool_decide_eq_true in Hp.
    exists p. repeat split; [by apply list_elem_of_In|congruence|done].
  - intros (p & Hin & E & Hp). exists p. split.
    + apply List.filter_In. split; [by apply list_elem_of_In|].
      apply bool_decide_eq_true. unfold project. simpl. by rewrite E.
    + rewrite andb_true_r. by apply bool_decide_eq_true.
Qed.

Lemma matching_spec (d : db) (u : row) :
  u ∈ matching schema_prisma d "User" findMany_query <->
  u ∈ rows d "User" /\
  exists p, p ∈ rows d "Post" /\
            p !! "authorId" = u !! "id" /\ p !! "published" = Some (DBool true).
Proof.
  unfold matching. rewrite list_elem_of_In, List.filter_In, <- list_elem_of_In.
  by rewrite <- Is_true_true, passes_published.
Qed.

Lemma base_with_relations sch (d : db) m incl (l : list row) :
  base <$> (with_relations sch d m incl <$> l) = l.
Proof. induction l as [|r l IH]; csimpl; [done|]. by rewrite IH. Qed.

(** What the scan of [reads] returns for the order [l]. *)
Lemma base_page (d : db) (l : list row) :
  base <$> page schema_prisma d "User" findMany_query l = take 10 (drop 20 l).
Proof.
  unfold page, window. cbn [q_take q_skip findMany_query]. apply base_with_relations.
Qed.

(** On the small database only Bob has a published post, and a scan that
    skips 20 users returns nobody. *)
Example scan_example :
  (fun u : row => u !! "email") <$> matching schema_prisma example_db "User" findMany_query
    = [Some (DStr "bob@example.com")] /\
  page schema_prisma example_db "User" findMany_query
       (an_order schema_prisma example_db "User" findMany_query) = [].
Proof. vm_compute. split; reflexivity. Qed.

(** C10: whichever order the database picks among users created at the
    same time, the scan returns at most 10 users, as many as there are
    past the first 20 of the users with a published post: those users
    stand newest first ([createdAt] descending), the first 20 are
    skipped, the next 10 are the result and the rest is left out; so no
    user skipped is older than a user returned, no user left out is newer,
    and every user returned has a published post.  There is always such a
    result. *)
Theorem C10_paginated_scan (d : db) :
  let users := matching schema_prisma d "User" findMany_query in
  let may_precede := fun r1 r2 : row => Is_true (row_leb [("createdAt", Desc)] r1 r2) in
  (exists res, findMany schema_prisma d "User" findMany_query res) /\
  (forall res, findMany schema_prisma d "User" findMany_query res ->
     length res <= 10 /\
     length res = min 10 (length users - 20) /\
     (exists skipped rest,
        skipped ++ (base <$> res) ++ rest ≡ₚ users /\
        StronglySorted may_precede (skipped ++ (base <$> res) ++ rest) /\
        length skipped = min 20 (length users) /\
        (rest <> [] -> length res = 10) /\
        (forall s u, s ∈ skipped -> u ∈ base <$> res -> may_precede s u) /\
        (forall u r, u ∈ base <$> res -> r ∈ rest -> may_precede u r)) /\
     (forall u, u ∈ base <$> res ->
        u ∈ rows d "User" /\
        exists p, p ∈ rows d "Post" /\
                  p !! "authorId" = u !! "id" /\ p !! "published" = Some (DBool true))) /\
  (forall (r1 r2 : row) t1 t2,
     r1 !! "createdAt" = Some (DDate t1) -> r2 !! "createdAt" = Some (DDate t2) ->
     may_precede r1 r2 <-> (t2 <= t1)%Z) /\
  (forall u, u ∈ users <->
     u ∈ rows d "User" /\
     exists p, p ∈ rows d "Post" /\
               p !! "authorId" = u !! "id" /\ p !! "published" = Some (DBool true)).
Proof.
  intros users may_precede. split_and!.
  - eexists. apply findMany_an_order.
  - intros res (l & [Hperm Hsorted] & ->). fold users in Hperm.
    cbn [q_orderBy findMany_query] in Hsorted. unfold in_order in Hsorted.
    rewrite base_page.
    assert (length (page schema_prisma d "User" findMany_query l)
            = min 10 (length users - 20)) as Hlen.
    { rewrite <- (length_fmap base), base_page, length_take, length_drop.
      by rewrite (Permutation_length Hperm). }
    assert (take 20 l ++ take 10 (drop 20 l) ++ drop 10 (drop 20 l) = l) as Hl
      by (by rewrite !take_drop).
    split_and!.
    + lia.
    + done.
    + exists (take 20 l), (drop 10 (drop 20 l)). rewrite Hl. split_and!.
      * done.
      * done.
      * by rewrite length_take, (Permutation_length Hperm).
      * intros Hrest. rewrite Hlen.
        assert (length (drop 10 (drop 20 l)) <> 0) as Hne
          by (by destruct (drop 10 (drop 20 l))).
        rewrite !length_drop, (Permutation_length Hperm) in Hne. lia.
      * intros s u Hs Hu. rewrite <- Hl in Hsorted.
        apply (StronglySorted_app_1_elem_of _ _ _ s u Hsorted Hs).
        apply elem_of_app. by left.
      * intros u r Hu Hr. rewrite <- Hl in Hsorted.
        apply StronglySorted_app_1_r in Hsorted.
        by apply (StronglySorted_app_1_elem_of _ _ _ u r Hsorted).
    + intros u Hu. apply subseteq_take, subseteq_drop in Hu. rewrite Hperm in Hu.
      by apply matching_spec.
  - apply newest_first.
  - apply matching_spec.
Qed.

End QueryFacts.

(** ** More about the script *)

Module ServerMore.
Import Js Server Runs Watch.

(** X1: [reads] calls [findUnique] first; when that is fulfilled it logs
    "User found:" with the value it got, once, and only then calls
    [findFirst], [findMany] and [count], each after the one before was
    fulfilled.  A rejected [findUnique] leaves nothing logged. *)
Theorem reads_timeline :
  forall env, exists s,
    run fuel (invoke "reads" reads) env = Some s /\
    visible (trace s)
      = EvCall c_findUnique ::
        match fulfilments (answers (trace s)) with
        | [] => []
        | user :: rest =>
            EvLog [VStr "User found:"; user] ::
            (EvCall <$> take (S (length rest)) [c_findFirst; c_findMany; c_count])
        end.
Proof. all_runs ltac:(reflexivity). Qed.

(** X2: [reads] and [writes] never have two calls outstanding: wherever
    a run stops, at most one call is waiting for its answer. *)
Theorem one_call_at_a_time :
  (forall env, exists s,
      run fuel (invoke "reads" reads) env = Some s /\ length (outstanding s) <= 1) /\
  (forall env, exists s,
      run fuel (invoke "writes" writes) env = Some s /\ length (outstanding s) <= 1).
Proof. split; all_runs ltac:(vm_compute; lia). Qed.

(** X3: in every run of the script the second call made is
    [$disconnect]: [findFirst], [findMany] and [count], when they are made
    at all, are made on a client whose [$disconnect] has been called. *)
Theorem queries_after_disconnect :
  forall env, exists s,
    run fuel server env = Some s /\
    calls (trace s)
      = [c_findUnique; c_disconnect]
        ++ take (length (fulfilments (query_answers (trace s))))
                [c_findFirst; c_findMany; c_count].
Proof. all_runs ltac:(reflexivity). Qed.

(** X4: the promise of [main] is always fulfilled, and what the chain
    [main().catch(..).finally(..)] settles with is decided by the answer to
    [$disconnect] alone: fulfilled when that is, rejected with its reason
    when that is rejected.  No read can make the chain fail. *)
Theorem chain_follows_disconnect :
  forall env, exists s,
    run fuel server env = Some s /\
    settled_of (is_async "main") (trace s) = [Fulfilled VUndefined] /\
    settled_of is_finally (trace s)
      = after_finally (Fulfilled VUndefined) <$> disconnect_answers (trace s).
Proof. all_runs ltac:(split; reflexivity). Qed.

(** X5: the script swallows no error: the rejections left unhandled when
    a run stops are exactly the reasons the client rejected a read or the
    [$disconnect] with. *)
Theorem rejections_stay_unhandled :
  forall env, exists s,
    run fuel server env = Some s /\
    unhandled s
      = reasons (query_answers (trace s)) ++ reasons (disconnect_answers (trace s)).
Proof. all_runs ltac:(reflexivity). Qed.

End ServerMore.

(** ** Facts about the scripts of [orm_slides.md] *)

Module SlidesFacts.
Import Js Server Runs Watch.

(** X15: the [main] of the slides awaits its calls, so - unlike in
    [server.js] - [$disconnect] is the last call made and is made only
    once [main] has settled; a rejected call rejects [main] with the same
    reason, which the catch handler receives. *)
Theorem getting_started_disconnects_last (stringify : value -> string) :
  forall env, exists s,
    run fuel (top_level (GettingStarted.main stringify)) env = Some s /\
    calls (trace s)
      = take (S (length (fulfilments (query_answers (trace s)))))
             [GettingStarted.c_create_john; GettingStarted.c_find_all]
        ++ ((fun _ => c_disconnect) <$> settled_of (is_async "main") (trace s)) /\
    caught (trace s) = reasons (query_answers (trace s)) /\
    settled_of is_catch (trace s) = settled_of (is_async "main") (trace s) /\
    reasons (settled_of (is_async "main") (trace s)) = reasons (query_answers (trace s)).
Proof. all_runs ltac:(repeat split; reflexivity). Qed.

Ltac value_cases v := destruct v as [ | | [|] | [|?|?] | [|? ?] | ? | ? ].

Ltac settle_cases tac :=
  lazymatch goal with
  | |- always ?fuel ?P ?s =>
      let r := eval vm_compute in (drain fuel s) in
      lazymatch r with
      | Some ?s1 =>
          apply (always_intro fuel P s s1);
          [ vm_compute; reflexivity
          | tac
          | let l := eval vm_compute in (picks (outstanding s1)) in
            change (picks (outstanding s1)) with l;
            repeat (apply Forall_cons_2;
                    [ let v := fresh "v" in
                      intros [v|?e]; [ value_cases v | ]; settle_cases tac
                    | ]);
            apply Forall_nil_2 ]
      end
  end.

(** X16: [UserService.createUser] makes no call at all for an email
    without "@" and is rejected with "Invalid email format"; otherwise it
    looks the email up first and calls [create] only when the lookup was
    fulfilled with nothing ([null]); a user found rejects it with "User
    already exists", and a rejected call rejects it with that reason. *)
Theorem createUser_guards (email : string) (others : list (string * datum)) :
  forall env, exists s,
    run fuel (invoke "createUser" (fun prisma => UserService.createUser prisma email others))
        env = Some s /\
    if Query.contains "@" email
    then
      calls (trace s)
        = UserService.c_lookup email
          :: (UserService.after_lookup email others (answers (trace s))).1 /\
      settled_of (is_async "createUser") (trace s)
        = (UserService.after_lookup email others (answers (trace s))).2
    else
      calls (trace s) = [] /\
      settled_of (is_async "createUser") (trace s)
        = [Rejected (Error "Invalid email format")].
Proof.
  unfold UserService.createUser.
  destruct (Query.contains "@" email); simpl negb; cbv iota;
    apply always_run; settle_cases ltac:(split; reflexivity).
Qed.

End SlidesFacts.

(** ** More about the store *)

Module StoreMore.
Import Schema Store SchemaFacts.

Ltac in_list := repeat first [ apply list_elem_of_here | apply list_elem_of_further ].

(** *** A required column that is not given *)





(** *** References *)

Lemma references_hold_model sch (d : db) m f target fks ks r :
  references_hold sch d -> m ∈ sch -> f ∈ m_fields m ->
  f_type f = Ref target -> foreign_key f = Some (fks, ks) ->
  r ∈ rows d (m_name m) ->
  exists r', r' ∈ rows d target /\ project ks r' = project fks r.
Proof.
  intros H Hm Hf Ht Hk Hr. apply bool_decide_unpack in H.
  rewrite Forall_forall in H. specialize (H m Hm).
  rewrite Forall_forall in H. specialize (H f Hf).
  unfold references_ok in H. rewrite Ht, Hk in H.
  rewrite Forall_forall in H. specialize (H r Hr).
  apply list_elem_of_fmap in H as (r' & E & Hin). eauto.
Qed.

Lemma commit_refused sch mdl r others d' :
  ~ references_hold sch d' -> commit sch mdl r others d' = None.
Proof.
  intros H. unfold commit. destruct (references_hold sch d'); [by destruct H|].
  by rewrite andb_false_r.
Qed.

(** X8: a post whose [authorId] is no user's id is not created. *)
Theorem create_post_needs_author now auto extra scalars nested (d : db) n :
  (list_to_map (extra ++ scalars) : row) !! "authorId" = Some (DInt n) ->
  DInt n ∉ keys "id" (rows d "User") ->
  create_in schema_prisma now auto "Post" extra (Data scalars nested) d = None.
Proof.
  intros Hg Hn.
  destruct (create_in schema_prisma now auto "Post" extra (Data scalars nested) d)
    as [[d' r]|] eqn:Hc; [|done]. exfalso.
  apply create_in_row in Hc as (mdl & d1 & Hm & Hr & Hs). injection Hm as <-.
  destruct (new_row_lookup Post now _ _ r
              (Field "authorId" (Scalar TInt) Required [])
              Post_names Hr ltac:(in_list) I) as [_ E].
  cbn [f_name] in E. unfold initial in E. cbn [f_name] in E. rewrite Hg in E.
  cbn [step] in Hs. change (find_model schema_prisma "Post") with (Some Post) in Hs.
  cbn [mbind option_bind] in Hs. apply commit_Some in Hs as (_ & _ & _ & Href).
  destruct (references_hold_model schema_prisma _ Post
              (Field "author" (Ref "User") Required [Relation ["authorId"] ["id"]])
              "User" ["authorId"] ["id"] r Href) as (u & Hu & Eu);
    try done; try in_list.
  { cbn [m_name Post]. rewrite rows_insert_eq. set_solver. }
  rewrite rows_insert_ne in Hu by done.
  apply project_one in Eu. rewrite E in Eu.
  apply Hn. apply (key_elem_of "id" _ u); [done|]. by apply key_lookup.
Qed.

Lemma create_post_needs_author_witness :
  create_in schema_prisma 30 dense "Post" []
    (Data [("title", DStr "Orphan"); ("authorId", DInt 7)] []) example_db = None.
Proof.
  apply (create_post_needs_author 30 dense [] _ [] example_db 7).
  - vm_compute. reflexivity.
  - apply (bool_decide_unpack _). vm_compute. exact I.
Defined.

(** *** Removing a row others point at *)

Lemma elem_of_delete_lookup {A} (l : list A) i x :
  x ∈ delete i l -> exists j, j <> i /\ l !! j = Some x.
Proof.
  intros H. apply list_elem_of_lookup in H as [j Hj].
  destruct (decide (j < i)) as [Hlt|Hge].
  - rewrite list_lookup_delete_lt in Hj by done. exists j. split; [lia|done].
  - rewrite list_lookup_delete_ge in Hj by lia. exists (S j). split; [lia|done].
Qed.

Lemma remove_pointed_at (d : db) i (u : row) m f fk (p : row) :
  admissible schema_prisma d ->
  rows d "User" !! i = Some u ->
  m ∈ schema_prisma -> m_name m <> "User" ->
  f ∈ m_fields m -> f_type f = Ref "User" -> foreign_key f = Some ([fk], ["id"]) ->
  p ∈ rows d (m_name m) -> p !! fk = u !! "id" ->
  step schema_prisma (Remove "User" i) d = None.
Proof.
  intros Hadm Hu Hm Hne Hf Ht Hk Hp E.
  cbn [step]. change (find_model schema_prisma "User") with (Some User).
  cbn [mbind option_bind]. rewrite Hu. cbn [mbind option_bind].
  destruct (references_hold schema_prisma _) eqn:Href; [exfalso|done].
  apply Is_true_true in Href.
  destruct (references_hold_model schema_prisma _ m f "User" [fk] ["id"] p Href)
    as (u' & Hu' & Eu'); try done.
  { by rewrite rows_insert_ne. }
  rewrite rows_insert_eq in Hu'. apply elem_of_delete_lookup in Hu' as (j & Hj & Hu').
  apply project_one in Eu'. apply Hj.
  apply (admissible_unique_column schema_prisma d "User" User "id"
           (Field "id" (Scalar TInt) Required [Id; Default Autoincrement]) TInt
           Hadm eq_refl eq_refl eq_refl eq_refl I j i u' u Hu' Hu).
  congruence.
Qed.

(** X9: a user who has written a post, or has a profile, cannot be removed. *)
Theorem user_with_dependents_stays (d : db) i (u : row) :
  admissible schema_prisma d ->
  rows d "User" !! i = Some u ->
  (exists p, p ∈ rows d "Post" /\ p !! "authorId" = u !! "id") \/
  (exists p, p ∈ rows d "Profile" /\ p !! "userId" = u !! "id") ->
  step schema_prisma (Remove "User" i) d = None.
Proof.
  intros Hadm Hu [(p & Hp & E)|(p & Hp & E)].
  - apply (remove_pointed_at d i u Post
             (Field "author" (Ref "User") Required [Relation ["authorId"] ["id"]])
             "authorId" p); try done; in_list.
  - apply (remove_pointed_at d i u Profile
             (Field "user" (Ref "User") Required [Relation ["userId"] ["id"]])
             "userId" p); try done; in_list.
Qed.

Lemma user_with_dependents_stays_witness :
  step schema_prisma (Remove "User" 1) example_db = None.
Proof.
  assert (is_Some (rows example_db "User" !! 1)) as [u Hu].
  { apply (bool_decide_unpack _). vm_compute. exact I. }
  apply (user_with_dependents_stays example_db 1 u).
  - apply (bool_decide_unpack _). vm_compute. exact I.
  - exact Hu.
  - right.
    assert (is_Some (rows example_db "Profile" !! 0)) as [p Hp].
    { apply (bool_decide_unpack _). vm_compute. exact I. }
    exists p. split; [by eapply list_elem_of_lookup_2|].
    assert ((rows example_db "User" !! 1 ≫= (fun u => u !! "id"))
            = (rows example_db "Profile" !! 0 ≫= (fun p => p !! "userId"))) as E
      by (vm_compute; reflexivity).
    rewrite Hu, Hp in E. simpl in E. by symmetry.
Defined.

(** *** When [create] succeeds *)

Lemma given_email_name e n :
  let given : row := list_to_map ([] ++ [("email", DStr e); ("name", DStr n)]) in
  given !! "id" = None /\ given !! "email" = Some (DStr e) /\
  given !! "name" = Some (DStr n) /\
  given !! "createdAt" = None /\ given !! "updatedAt" = None.
Proof.
  simpl. split_and!.
  - by rewrite !lookup_insert_ne.
  - by rewrite lookup_insert_eq.
  - rewrite lookup_insert_ne by done. by rewrite lookup_insert_eq.
  - by rewrite !lookup_insert_ne.
  - by rewrite !lookup_insert_ne.
Qed.

(** X6: [create] with an email and a name, as [writes] calls it.  When a
    user already has the email, the call fails.  When the call succeeds,
    the new user is added at the end of the users and nothing else
    changes; the user holds the email and the name given, the time as
    [createdAt] and [updatedAt], and the id the database handed out, which
    no user had; and the state stays one the schema admits. *)
Theorem create_user_checks_email now auto e n (d : db) :
  (DStr e ∈ keys "email" (rows d "User") ->
   create_in schema_prisma now auto "User" []
     (Data [("email", DStr e); ("name", DStr n)] []) d = None) /\
  (forall d' (r : row),
     create_in schema_prisma now auto "User" []
       (Data [("email", DStr e); ("name", DStr n)] []) d = Some (d', r) ->
     d' = <["User" := rows d "User" ++ [r]]> d /\
     rows d' "User" = rows d "User" ++ [r] /\
     (DStr e ∉ keys "email" (rows d "User")) /\
     r !! "id" = Some (DInt (auto "User" (rows d "User"))) /\
     (DInt (auto "User" (rows d "User")) ∉ keys "id" (rows d "User")) /\
     r !! "email" = Some (DStr e) /\ r !! "name" = Some (DStr n) /\
     r !! "createdAt" = Some (DDate now) /\ r !! "updatedAt" = Some (DDate now) /\
     (admissible schema_prisma d -> admissible schema_prisma d')).
Proof.
  destruct (given_email_name e n) as (Gid & Gemail & Gname & Gc & Gu).
  assert (forall d' (r : row),
     create_in schema_prisma now auto "User" []
       (Data [("email", DStr e); ("name", DStr n)] []) d = Some (d', r) ->
     d' = <["User" := rows d "User" ++ [r]]> d /\
     rows d' "User" = rows d "User" ++ [r] /\
     (DStr e ∉ keys "email" (rows d "User")) /\
     r !! "id" = Some (DInt (auto "User" (rows d "User"))) /\
     (DInt (auto "User" (rows d "User")) ∉ keys "id" (rows d "User")) /\
     r !! "email" = Some (DStr e) /\ r !! "name" = Some (DStr n) /\
     r !! "createdAt" = Some (DDate now) /\ r !! "updatedAt" = Some (DDate now) /\
     (admissible schema_prisma d -> admissible schema_prisma d')) as Hsome.
  { intros d' r Hc. pose proof Hc as Hc'.
    apply create_in_row in Hc as (mdl & d1 & Hm & Hr & Hs). injection Hm as <-.
    destruct (new_row_lookup User now _ _ r
                (Field "id" (Scalar TInt) Required [Id; Default Autoincrement])
                User_names Hr ltac:(in_list) I) as [_ E1].
    destruct (new_row_lookup User now _ _ r
                (Field "email" (Scalar TString) Required [Unique])
                User_names Hr ltac:(in_list) I) as [_ E2].
    destruct (new_row_lookup User now _ _ r
                (Field "name" (Scalar TString) Optional [])
                User_names Hr ltac:(in_list) I) as [_ E3].
    destruct (new_row_lookup User now _ _ r
                (Field "createdAt" (Scalar TDateTime) Required [Default Now])
                User_names Hr ltac:(in_list) I) as [_ E4].
    destruct (new_row_lookup User now _ _ r
                (Field "updatedAt" (Scalar TDateTime) Required [UpdatedAt])
                User_names Hr ltac:(in_list) I) as [_ E5].
    unfold initial in *. cbn [f_name] in *.
    rewrite Gid in E1. rewrite Gemail in E2. rewrite Gname in E3.
    rewrite Gc in E4. rewrite Gu in E5.
    cbn [default_of f_attrs omap head has_attr is_optional f_arity] in E1, E4, E5.
    assert (d' = d1) as ->.
    { cbn [create_in] in Hc'.
      change (find_model schema_prisma "User") with (Some User) in Hc'.
      cbn [mbind option_bind] in Hc'.
      destruct (guard _) as [?|]; [|done]. cbn [mbind option_bind] in Hc'.
      rewrite Hr in Hc'. cbn [mbind option_bind] in Hc'. rewrite Hs in Hc'.
      cbn [mbind option_bind] in Hc'. by injection Hc' as <-. }
    pose proof Hs as Hstep.
    cbn [step] in Hs. change (find_model schema_prisma "User") with (Some User) in Hs.
    cbn [mbind option_bind] in Hs. apply commit_Some in Hs as (-> & _ & Hfresh & _).
    split_and!; try done.
    - by rewrite rows_insert_eq.
    - apply (fresh_keys_spec User r _ (Field "email" (Scalar TString) Required [Unique]));
        [done|in_list|done|]. by apply key_lookup.
    - apply (fresh_keys_spec User r _
               (Field "id" (Scalar TInt) Required [Id; Default Autoincrement]));
        [done|in_list|done|]. by apply key_lookup.
    - intros Hadm. by apply (step_admissible _ _ _ _ schema_prisma_names Hadm Hstep). }
  split; [|exact Hsome].
  intros Hdup.
  destruct (create_in schema_prisma now auto "User" [] _ d) as [[d' r]|] eqn:Hc; [|done].
  by destruct (Hsome d' r eq_refl) as (_ & _ & Hfresh & _).
Qed.

Lemma create_user_checks_email_witness :
  create_in schema_prisma 30 dense "User" []
    (Data [("email", DStr "alice@example.com"); ("name", DStr "Alice Smith")] [])
    example_db = None /\
  exists d' r,
    create_in schema_prisma 30 dense "User" []
      (Data [("email", DStr "carol@example.com"); ("name", DStr "Carol")] [])
      example_db = Some (d', r) /\
    rows d' "User" = rows example_db "User" ++ [r] /\
    r !! "id" = Some (DInt 3) /\
    r !! "createdAt" = Some (DDate 30).
Proof.
  split.
  - apply (create_user_checks_email 30 dense "alice@example.com" "Alice Smith" example_db).
    apply (bool_decide_unpack _). vm_compute. exact I.
  - assert (is_Some (create_in schema_prisma 30 dense "User" []
                       (Data [("email", DStr "carol@example.com"); ("name", DStr "Carol")] [])
                       example_db)) as [[d' r] E].
    { apply (bool_decide_unpack _). vm_compute. exact I. }
    exists d', r. split; [exact E|].
    destruct (create_user_checks_email 30 dense "carol@example.com" "Carol" example_db)
      as [_ H].
    destruct (H d' r E) as (_ & ? & _ & Eid & _ & _ & _ & ? & _).
    split_and!; [done|rewrite Eid; vm_compute; reflexivity|done].
Defined.

(** *** The other two models *)

(** X10: the Profile model, column by column: [bio] and [avatar] are its
    only optional columns, and every profile the schema admits holds the
    columns with their types, with an id no other profile has. *)
Theorem profile_entity (d : db) :
  admissible schema_prisma d ->
  fields_where is_scalar Profile = ["id"; "bio"; "avatar"; "userId"] /\
  fields_where (fun f => is_scalar f && is_optional f) Profile = ["bio"; "avatar"] /\
  fields_where is_unique Profile = ["id"; "userId"] /\
  f_arity <$> find_field Profile "user" = Some Required /\
  unique_column d "Profile" "id" /\
  (forall p, p ∈ rows d "Profile" ->
     column_holds p "id" TInt false /\
     column_holds p "bio" TString true /\
     column_holds p "avatar" TString true /\
     column_holds p "userId" TInt false).
Proof.
  intros Hadm. split_and!; try done.
  - by apply (admissible_unique_column schema_prisma d "Profile" Profile "id"
                (Field "id" (Scalar TInt) Required [Id; Default Autoincrement]) TInt).
  - intros p Hp. split_and!.
    + by apply (admissible_column schema_prisma d "Profile" Profile "id"
                  (Field "id" (Scalar TInt) Required [Id; Default Autoincrement])).
    + by apply (admissible_column schema_prisma d "Profile" Profile "bio"
                  (Field "bio" (Scalar TString) Optional [])).
    + by apply (admissible_column schema_prisma d "Profile" Profile "avatar"
                  (Field "avatar" (Scalar TString) Optional [])).
    + by apply (admissible_column schema_prisma d "Profile" Profile "userId"
                  (Field "userId" (Scalar TInt) Required [Unique])).
Qed.

Lemma profile_entity_witness :
  admissible schema_prisma example_db /\ unique_column example_db "Profile" "id".
Proof.
  assert (admissible schema_prisma example_db) as Hadm.
  { apply (bool_decide_unpack _). vm_compute. exact I. }
  split; [exact Hadm|].
  pose proof (profile_entity example_db Hadm) as H.
  do 4 (destruct H as [_ H]). by destruct H.
Defined.

(** X11: the Tag model: an id and a name, both required and both unique, and
    a many-to-many relation with posts that takes no column. *)
Theorem tag_entity (d : db) :
  admissible schema_prisma d ->
  fields_where is_scalar Tag = ["id"; "name"] /\
  fields_where (fun f => is_scalar f && is_optional f) Tag = [] /\
  fields_where is_unique Tag = ["id"; "name"] /\
  kind_of schema_prisma "Tag" "posts" = Some ("Post", ManyToMany) /\
  foreign_key <$> find_field Tag "posts" = Some None /\
  foreign_key <$> find_field Post "tags" = Some None /\
  unique_column d "Tag" "id" /\
  (forall t, t ∈ rows d "Tag" ->
     column_holds t "id" TInt false /\ column_holds t "name" TString false).
Proof.
  intros Hadm. split_and!; try done.
  - by apply (admissible_unique_column schema_prisma d "Tag" Tag "id"
                (Field "id" (Scalar TInt) Required [Id; Default Autoincrement]) TInt).
  - intros t Ht. split.
    + by apply (admissible_column schema_prisma d "Tag" Tag "id"
                  (Field "id" (Scalar TInt) Required [Id; Default Autoincrement])).
    + by apply (admissible_column schema_prisma d "Tag" Tag "name"
                  (Field "name" (Scalar TString) Required [Unique])).
Qed.

Lemma tag_entity_witness :
  admissible schema_prisma example_db /\ unique_column example_db "Tag" "id".
Proof.
  assert (admissible schema_prisma example_db) as Hadm.
  { apply (bool_decide_unpack _). vm_compute. exact I. }
  split; [exact Hadm|].
  pose proof (tag_entity example_db Hadm) as H.
  do 6 (destruct H as [_ H]). by destruct H.
Defined.

End StoreMore.

(** ** More about the queries of [reads] *)

Module QueryMore.
Import Schema Store Query Reading Server SchemaFacts QueryFacts.

Ltac is_member := repeat first [ apply list_elem_of_here | apply list_elem_of_further ].

(** With 25 users created one after the other the scan returns the five
    oldest, newest of them first. *)
Example scan_of_a_crowd :
  admissible schema_prisma (crowd 25) /\
  (fun f => base f !! "id")
    <$> page schema_prisma (crowd 25) "User" findMany_query
             (an_order schema_prisma (crowd 25) "User" findMany_query)
  = [Some (DInt 5); Some (DInt 4); Some (DInt 3); Some (DInt 2); Some (DInt 1)].
Proof. split; [apply (bool_decide_unpack _)|]; vm_compute; done. Qed.

(** With 25 users created at the same time the page is not determined: the
    order of the table and its reverse are both orders [orderBy] allows,
    and the scan may return users 21 to 25 as well as users 5 to 1. *)
Example ties_leave_the_page_open :
  let users := rows (same_time 25) "User" in
  let scan := page schema_prisma (same_time 25) "User" findMany_query in
  admissible schema_prisma (same_time 25) /\
  findMany schema_prisma (same_time 25) "User" findMany_query (scan users) /\
  findMany schema_prisma (same_time 25) "User" findMany_query (scan (reverse users)) /\
  (fun f => base f !! "id") <$> scan users
  = [Some (DInt 21); Some (DInt 22); Some (DInt 23); Some (DInt 24); Some (DInt 25)] /\
  (fun f => base f !! "id") <$> scan (reverse users)
  = [Some (DInt 5); Some (DInt 4); Some (DInt 3); Some (DInt 2); Some (DInt 1)].
Proof.
  intros users scan.
  assert (matching schema_prisma (same_time 25) "User" findMany_query = users) as Hm.
  { apply (bool_decide_unpack _). vm_compute. exact I. }
  assert (in_order (q_orderBy findMany_query) users) as Hs.
  { apply (bool_decide_unpack _). vm_compute. exact I. }
  assert (in_order (q_orderBy findMany_query) (reverse users)) as Hr.
  { apply (bool_decide_unpack _). vm_compute. exact I. }
  split_and!.
  - apply (bool_decide_unpack _). vm_compute. exact I.
  - exists users. split; [|done]. split; [by rewrite Hm|done].
  - exists (reverse users). split; [|done]. split; [|done].
    rewrite Hm. apply reverse_Permutation.
  - vm_compute. reflexivity.
  - vm_compute. reflexivity.
Qed.

(** X12: whichever order the database picks, the page [reads] asks for
    holds as many users as come after the first 20 of those its [count]
    counts, 10 at most: it is empty unless more than 20 users have a
    published post. *)
Theorem page_length_from_count (d : db) :
  count_args = QFind count_query /\
  (exists res, findMany schema_prisma d "User" findMany_query res) /\
  (forall res, findMany schema_prisma d "User" findMany_query res ->
     length res = min 10 (count schema_prisma d "User" count_query - 20)).
Proof.
  split_and!; [reflexivity|eexists; apply findMany_an_order|].
  intros res (l & [Hperm _] & ->).
  rewrite <- (length_fmap base), base_page, length_take, length_drop.
  by rewrite (Permutation_length Hperm).
Qed.

(** X13: in a state the schema admits, a lookup by email - the [where] of the
    [findUnique] in [reads] - matches at most one user. *)
Theorem email_lookup_is_unambiguous (d : db) (email : string) :
  admissible schema_prisma d ->
  findUnique_args = QFind (email_query "alice@example.com") /\
  length (matching schema_prisma d "User" (email_query email)) <= 1.
Proof.
  intros Hadm. split; [reflexivity|].
  unfold matching, passes. cbn [q_where email_query forallb holds].
  rewrite (List.filter_ext _ (fun r => bool_decide (key "email" r = Some (DStr email)))).
  - apply keys_at_most_one.
    apply (admissible_unique schema_prisma d User
             (Field "email" (Scalar TString) Required [Unique]) Hadm);
      [is_member..|done].
  - intros r. rewrite andb_true_r. apply bool_decide_ext. rewrite key_lookup.
    split; [by intros ->|by intros [-> _]].
Qed.

Lemma email_lookup_is_unambiguous_witness :
  admissible schema_prisma example_db /\
  length (matching schema_prisma example_db "User" (email_query "alice@example.com")) <= 1.
Proof.
  assert (admissible schema_prisma example_db) as Hadm.
  { apply (bool_decide_unpack _). vm_compute. exact I. }
  split; [exact Hadm|].
  by apply (email_lookup_is_unambiguous example_db "alice@example.com").
Defined.

Lemma related_profile (d : db) (u : row) :
  related_rows schema_prisma d "User" "profile" u
  = Some ("Profile", profiles_of d u).
Proof. reflexivity. Qed.

(** X14: whichever order the database picks, every user [findMany] returns
    in [reads] carries, under [posts], the posts whose [authorId] is the
    user's id and, under [profile], the profiles whose [userId] is - at
    most one when the schema admits the state. *)
Theorem scan_includes_relations (d : db) (res : list found) (f : found) :
  findMany schema_prisma d "User" findMany_query res ->
  f ∈ res ->
  included f
    = [("posts",
        List.filter (fun p => bool_decide (project ["authorId"] p = project ["id"] (base f)))
                    (rows d "Post"));
       ("profile", profiles_of d (base f))] /\
  (admissible schema_prisma d -> length (profiles_of d (base f)) <= 1).
Proof.
  intros (l & [Hperm _] & ->) Hf. unfold page in Hf.
  apply list_elem_of_fmap in Hf as (u & -> & Hu).
  split.
  - unfold with_relations. cbn [included base q_include findMany_query fmap list_fmap].
    by rewrite related_posts, related_profile.
  - intros Hadm. cbn [base with_relations].
    cbn [q_take q_skip findMany_query window] in Hu.
    apply subseteq_take, subseteq_drop in Hu.
    rewrite Hperm in Hu.
    apply matching_spec in Hu as [Hu _].
    apply at_most_one_pointing.
    + apply (admissible_unique schema_prisma d Profile
               (Field "userId" (Scalar TInt) Required [Unique]) Hadm);
        [is_member..|done].
    + by apply (admissible_column schema_prisma d "User" User "id"
                  (Field "id" (Scalar TInt) Required [Id; Default Autoincrement])).
Qed.

Lemma scan_includes_relations_witness :
  exists res f,
    findMany schema_prisma (crowd 25) "User" findMany_query res /\
    f ∈ res /\
    included f
    = [("posts",
        List.filter (fun p => bool_decide (project ["authorId"] p = project ["id"] (base f)))
                    (rows (crowd 25) "Post"));
       ("profile", profiles_of (crowd 25) (base f))].
Proof.
  pose proof (findMany_an_order schema_prisma (crowd 25) "User" findMany_query) as Hres.
  assert (is_Some (head (page schema_prisma (crowd 25) "User" findMany_query
                              (an_order schema_prisma (crowd 25) "User" findMany_query))))
    as [f Hf].
  { apply (bool_decide_unpack _). vm_compute. exact I. }
  rewrite head_lookup in Hf. apply list_elem_of_lookup_2 in Hf.
  eexists _, f. split; [exact Hres|]. split; [exact Hf|].
  by destruct (scan_includes_relations (crowd 25) _ f Hres Hf) as [E _].
Defined.

End QueryMore.

(** ** Facts about the snippets of [raw_sql_issues.md] *)

Module RawSqlFacts.
Import RawSql.

Ltac filter_cases f :=
  destruct f as [[[|? ?]|] [[|?|?]|] [[|? ?]|]].

(** X17: [buildUserQuery] writes one placeholder for every parameter it
    returns. *)
Theorem placeholders_match_params (f : filters) :
  occurrences "?" (query (buildUserQuery f)) = length (params (buildUserQuery f)).
Proof. filter_cases f; reflexivity. Qed.

(** X18: the text of the query depends only on which filters are set; what
    they hold goes to the parameters alone. *)
Theorem query_text_ignores_values (f g : filters) :
  shape f = shape g -> query (buildUserQuery f) = query (buildUserQuery g).
Proof. filter_cases f; filter_cases g; intros [=]; reflexivity. Qed.

Lemma query_text_ignores_values_witness :
  query (buildUserQuery (Filters (Some "John") None (Some "john@email.com")))
  = query (buildUserQuery (Filters (Some "'; DROP TABLE users; --") None (Some "x"))).
Proof. apply query_text_ignores_values. reflexivity. Defined.

(** X19: a name or email that is the empty string, and a minimum age of 0,
    count as not given. *)
Theorem falsy_filters_are_dropped (f : filters) :
  buildUserQuery f
  = buildUserQuery (Filters (set_string (name f)) (set_number (minAge f))
                            (set_string (email f))) /\
  buildUserQuery (Filters (Some "") (Some 0%Z) (Some ""))
  = Built "SELECT * FROM users WHERE 1=1" [].
Proof. split; [filter_cases f|]; reflexivity. Qed.

(** X20: the query [buildUserQuery] writes is the [where] object built from
    the same filters, condition by condition: the same clauses in the same
    order, with the same parameters. *)
Theorem where_matches_query (f : filters) :
  query (buildUserQuery f)
  = "SELECT * FROM users WHERE 1=1" +:+ foldr String.append "" (clause <$> dynamic_where f) /\
  params (buildUserQuery f) = parameter <$> dynamic_where f.
Proof. filter_cases f; split; reflexivity. Qed.

End RawSqlFacts.

Module RestructureFacts.
Import Restructure.

Example two_posts_three_comments :
  let row p t c x := Joined (VNum 1) (VStr "Ann") (VStr "ann@x.io")
                            p (VStr t) VNull c (VStr x) (VStr "Bob") in
  (fun u => (fun p => (p_id p, length (comments p))) <$> posts u)
    <$> restructure [row (Some 7%Z) "a" (Some 1%Z) "x"; row (Some 8%Z) "b" None "";
                     row (Some 7%Z) "a" (Some 2%Z) "y"; row (Some 8%Z) "b" (Some 3%Z) "z"]
  = Some [(7%Z, 2); (8%Z, 1)].
Proof. vm_compute. reflexivity. Qed.


(** *** The map *)

Lemma get_is_Some (m : map) k : is_Some (get m k) <-> k ∈ m.*1.
Proof.
  unfold get. induction m as [|[k0 p0] m IH]; simpl.
  - split; [by intros [? ?]|by intros ?%elem_of_nil].
  - case_bool_decide as E; simpl in E.
    + subst. split; [intros _; left|eauto].
    + rewrite IH. split; [by right|]. intros [?|?]%elem_of_cons; [congruence|done].
Qed.

Lemma push_keys k c (m : map) : (push k c m).*1 = m.*1.
Proof.
  unfold push. induction m as [|[k0 p0] m IH]; csimpl; [done|].
  rewrite IH. by case_bool_decide.
Qed.

Lemma present_Some o k : present o = Some k <-> o = Some k /\ k <> 0%Z.
Proof. destruct o as [[| |]|]; simpl; split; intros; destruct_and?; simplify_eq; done. Qed.

Lemma comments_for_snoc k rows row :
  comments_for k (rows ++ [row])
  = comments_for k rows
    ++ (if bool_decide (post_id row = Some k) then option_list (comment_of row) else []).
Proof.
  unfold comments_for. rewrite List.filter_app, omap_app. f_equal. simpl.
  case_bool_decide; [|done]. simpl. by destruct (comment_of row).
Qed.

(** *** What the loop keeps true *)

(** After the rows [seen]: the keys are the post ids seen, each once, and
    every post holds the comments of its own rows, in row order. *)
Definition tidy (m : map) (seen : list joined) : Prop :=
  NoDup m.*1 /\
  (forall k, k ∈ m.*1 <-> exists row, row ∈ seen /\ present (post_id row) = Some k) /\
  Forall (fun kp => p_id kp.2 = kp.1 /\ comments kp.2 = comments_for kp.1 seen) m.

Lemma tidy_nil : tidy [] [].
Proof.
  split_and!; [constructor| |constructor].
  intros k. split; [by intros ?%elem_of_nil|]. by intros (? & ?%elem_of_nil & _).
Qed.

Lemma tidy_no_zero m seen : tidy m seen -> 0%Z ∉ m.*1.
Proof.
  intros (_ & K & _) H. apply K in H as (row & _ & E).
  apply present_Some in E as [_ ?]. done.
Qed.

(** A row is taken in without error unless it has a comment and no post. *)
Lemma each_None m seen row :
  tidy m seen -> each m row = None <-> orphan row.
Proof.
  intros Ht. pose proof (tidy_no_zero _ _ Ht) as Hz. unfold each, orphan.
  destruct (present (comment_id row)) as [c|] eqn:Ec; simpl;
    [|split; [done|by intros []]].
  destruct (present (post_id row)) as [k|] eqn:Ek; simpl.
  - apply present_Some in Ek as [-> _]. simpl. split; [|by intros []].
    destruct (has m k) eqn:Hh; simpl.
    + apply bool_decide_eq_true, get_is_Some in Hh as [p ->]. done.
    + destruct (get_is_Some (m ++ [(k, Post k (title row) (content row) [])]) k)
        as [_ [p ->]]; [|done].
      rewrite fmap_app. apply elem_of_app. right. by left.
  - split; [done|]. intros _.
    destruct (post_id row) as [k|]; [|done]. simpl.
    destruct k; try done. simpl.
    destruct (get m 0) eqn:G; [|done].
    destruct Hz. apply get_is_Some. eauto.
Qed.

Lemma each_tidy m seen row m' :
  tidy m seen -> each m row = Some m' -> tidy m' (seen ++ [row]).
Proof.
  intros (Hnd & Hkeys & Hposts) He. unfold each in He.
  set (m1 := match present (post_id row) with
             | Some k => if negb (has m k)
                         then m ++ [(k, Post k (title row) (content row) [])] else m
             | None => m
             end) in *.
  (* the state after the first [if]: tidy but for the comment of [row] *)
  assert (NoDup m1.*1 /\
          (forall k, k ∈ m1.*1 <->
                     exists row', row' ∈ seen ++ [row] /\ present (post_id row') = Some k) /\
          Forall (fun kp => p_id kp.2 = kp.1 /\ comments kp.2 = comments_for kp.1 seen) m1)
    as (Hnd1 & Hkeys1 & Hposts1).
  { subst m1. destruct (present (post_id row)) as [k|] eqn:Ek.
    - destruct (has m k) eqn:Hh; simpl.
      + apply bool_decide_eq_true in Hh. split_and!; [done| |done].
        intros k'. rewrite Hkeys. split.
        * intros (r & Hr & E). exists r. split; [by apply elem_of_app; left|done].
        * intros (r & [Hr|Hr]%elem_of_app & E); [eauto|].
          apply list_elem_of_singleton in Hr as ->.
          assert (k' = k) as -> by congruence. by apply Hkeys.
      + apply bool_decide_eq_false in Hh. split_and!.
        * rewrite fmap_app. apply NoDup_app. split_and!; [done| |apply NoDup_singleton].
          intros x Hx [= ->]%list_elem_of_singleton. done.
        * intros k'. rewrite fmap_app, elem_of_app, Hkeys. split.
          -- intros [(r & Hr & E)|Hk].
             ++ exists r. split; [by apply elem_of_app; left|done].
             ++ apply list_elem_of_singleton in Hk. simpl in Hk. subst.
                exists row. split; [apply elem_of_app; right; by left|done].
          -- intros (r & [Hr|Hr]%elem_of_app & E); [left; eauto|].
             apply list_elem_of_singleton in Hr as ->. right.
             assert (k' = k) as -> by congruence. by left.
        * apply Forall_app. split; [done|]. apply Forall_singleton. simpl.
          split; [done|]. unfold comments_for.
          assert (List.filter (fun r => bool_decide (post_id r = Some k)) seen = []) as ->;
            [|done].
          destruct (List.filter _ seen) as [|r l] eqn:F; [done|].
          assert (In r (List.filter (fun r => bool_decide (post_id r = Some k)) seen)) as Hin
            by (rewrite F; by left).
          apply List.filter_In in Hin as [Hin Er]. apply bool_decide_eq_true in Er.
          destruct Hh. apply Hkeys. exists r. split; [by apply list_elem_of_In|].
          apply present_Some. apply present_Some in Ek as [_ ?]. done.
    - split_and!; [done| |done].
      intros k'. rewrite Hkeys. split.
      + intros (r & Hr & E). exists r. split; [by apply elem_of_app; left|done].
      + intros (r & [Hr|Hr]%elem_of_app & E); [eauto|].
        apply list_elem_of_singleton in Hr as ->. congruence. }
  clearbody m1.
  destruct (present (comment_id row)) as [c|] eqn:Ec.
  - destruct (post_id row) as [k|] eqn:Ep; [|done]. simpl in He.
    destruct (get m1 k) as [p|] eqn:G; [|done]. simpl in He. injection He as <-.
    split_and!.
    + by rewrite push_keys.
    + intros k'. by rewrite push_keys.
    + unfold push. apply Forall_fmap. eapply Forall_impl; [exact Hposts1|].
      intros [k' p'] [Hid Hc]. simpl in *. rewrite comments_for_snoc.
      unfold comment_of. rewrite Ec. simpl.
      case_bool_decide as E1; simpl.
      * split; [done|]. rewrite Hc. f_equal.
        case_bool_decide; [done|congruence].
      * split; [done|].
        case_bool_decide; [congruence|]. by rewrite app_nil_r.
  - injection He as <-. split_and!; [done|done|].
    eapply Forall_impl; [exact Hposts1|].
    intros [k' p'] [Hid Hc]. simpl in *. rewrite comments_for_snoc.
    unfold comment_of. rewrite Ec. simpl. split; [done|].
    rewrite Hc. by case_bool_decide; rewrite app_nil_r.
Qed.

Lemma forEach_tidy rest : forall m seen m',
  tidy m seen -> forEach rest m = Some m' -> tidy m' (seen ++ rest).
Proof.
  induction rest as [|row rest IH]; intros m seen m' Ht H; simpl in H.
  - injection H as <-. by rewrite app_nil_r.
  - destruct (each m row) as [m1|] eqn:E; [|done]. simpl in H.
    rewrite (cons_middle row seen rest), app_assoc.
    apply (IH m1); [|done]. by apply (each_tidy m).
Qed.

Lemma forEach_None rest : forall m seen,
  tidy m seen -> forEach rest m = None <-> Exists (fun row => orphan row) rest.
Proof.
  induction rest as [|row rest IH]; intros m seen Ht; simpl.
  - split; [done|]. by intros ?%Exists_nil.
  - rewrite Exists_cons. destruct (each m row) as [m1|] eqn:E; simpl.
    + rewrite (IH m1 (seen ++ [row]) (each_tidy _ _ _ _ Ht E)).
      split; [by right|]. intros [Ho|?]; [|done].
      apply (each_None m seen row Ht) in Ho. congruence.
    + split; [|done]. intros _. left. by apply (each_None m seen row Ht).
Qed.

(** X21: the snippet throws exactly when there is no row at all, or some row
    has a comment but no post. *)
Theorem restructure_fails_iff (rows : list joined) :
  restructure rows = None <-> rows = [] \/ Exists (fun row => orphan row) rows.
Proof.
  unfold restructure. destruct (head rows) as [first|] eqn:Hh; simpl.
  - pose proof (forEach_None rows [] [] tidy_nil) as HN.
    destruct (forEach rows []) as [m|]; simpl.
    + split; [done|]. intros [->|Ho]; [done|]. by apply HN in Ho.
    + split; [|done]. intros _. right. by apply HN.
  - apply head_None in Hh as ->. split; [by left|done].
Qed.

(** An id of 0 counts as absent, like NULL: the code tests the ids for
    truthiness.  A post with id 0 is left out, and so is a comment with
    id 0. *)
Example zero_ids_are_left_out :
  let row p c := Joined (VNum 1) (VStr "Ann") (VStr "ann@x.io")
                        p (VStr "a") VNull c (VStr "x") (VStr "Bob") in
  (fun u => (fun p => (p_id p, c_id <$> comments p)) <$> posts u)
    <$> restructure [row (Some 0%Z) None; row (Some 7%Z) (Some 0%Z);
                     row (Some 7%Z) (Some 3%Z)]
  = Some [(7%Z, [3%Z])].
Proof. vm_compute. reflexivity. Qed.

(** X22: when the snippet succeeds, the user is the one of the first row;
    the posts are the post ids of the rows that are neither NULL nor 0,
    each once; and each post holds, in the order of the rows, the comments
    of the rows with its id whose comment id is neither NULL nor 0.  No
    post has id 0 and no comment has id 0: rows with such ids add
    nothing. *)
Theorem restructure_groups (rows : list joined) (u : user) :
  restructure rows = Some u ->
  (exists first, head rows = Some first /\
     u_id u = id first /\ u_name u = name first /\ u_email u = email first) /\
  NoDup (p_id <$> posts u) /\
  (forall k, k ∈ p_id <$> posts u <->
     k <> 0%Z /\ exists row, row ∈ rows /\ post_id row = Some k) /\
  Forall (fun p =>
            comments p
            = omap (fun row =>
                      match comment_id row with
                      | Some c => if bool_decide (c = 0%Z) then None
                                  else Some (Comment c (text row) (author_name row))
                      | None => None
                      end)
                   (List.filter (fun row => bool_decide (post_id row = Some (p_id p))) rows) /\
            Forall (fun c => c_id c <> 0%Z) (comments p))
         (posts u).
Proof.
  unfold restructure. destruct (head rows) as [first|] eqn:Hh; [|done]. simpl.
  destruct (forEach rows []) as [m|] eqn:Hf; [|done]. simpl. intros [= <-].
  destruct (forEach_tidy rows [] [] m tidy_nil Hf) as (Hnd & Hkeys & Hposts).
  simpl in *.
  assert (p_id <$> m.*2 = m.*1) as Hids.
  { clear -Hposts. induction Hposts as [|[k p] m [Hid _] _ IH]; csimpl; [done|].
    simpl in Hid. by rewrite Hid, IH. }
  assert (forall l : list joined,
            omap comment_of l
            = omap (fun row =>
                      match comment_id row with
                      | Some c => if bool_decide (c = 0%Z) then None
                                  else Some (Comment c (text row) (author_name row))
                      | None => None
                      end) l) as Hsame.
  { intros l. induction l as [|row l IH]; [done|]. cbn [omap list_omap].
    rewrite IH. unfold comment_of. by destruct (comment_id row) as [[| |]|]. }
  split_and!; eauto.
  - by rewrite Hids.
  - intros k. rewrite Hids, Hkeys. split.
    + intros (row & Hin & [E Hk]%present_Some). eauto.
    + intros (Hk & row & Hin & E). exists row. split; [done|]. by apply present_Some.
  - apply Forall_fmap. eapply Forall_impl; [exact Hposts|].
    intros [k p] [Hid Hc]. simpl in *. rewrite Hid, Hc. unfold comments_for.
    split; [apply Hsame|].
    apply Forall_forall. intros c Hin. apply list_elem_of_omap in Hin as (row & _ & E).
    unfold comment_of in E. destruct (present (comment_id row)) as [c0|] eqn:Ec; [|done].
    injection E as <-. simpl. by apply present_Some in Ec as [_ ?].
Qed.

Lemma restructure_groups_witness :
  exists u,
    restructure [Joined (VNum 1) (VStr "Ann") (VStr "ann@x.io")
                        (Some 7%Z) (VStr "a") VNull (Some 1%Z) (VStr "x") (VStr "Bob")]
    = Some u /\
    NoDup (p_id <$> posts u).
Proof.
  lazymatch goal with
  | |- exists u, ?r = Some u /\ _ =>
      let v := eval vm_compute in r in
      lazymatch v with
      | Some ?u0 => exists u0; assert (r = Some u0) as E by (vm_compute; reflexivity)
      end
  end.
  split; [exact E|]. by destruct (restructure_groups _ _ E) as (_ & H & _).
Defined.

End RestructureFacts.
